(** * Random Fourier features classifier: embedding and verification

    The program is the notebook [random_fourier_features.ipynb]: it draws a
    random projection basis [w], maps inputs through [s(x) = exp(1j*x)],
    solves the ridge-regularised normal equations in closed form and scores
    the predictions obtained with [argmax] of the real part.

    Number model.  numpy's [float64] is modelled by the real numbers [R] of
    the Standard Library and [complex128] by pairs of reals; rounding,
    infinities and NaN are outside the model.  Arrays whose shape is fixed
    by the surrounding code are MathComp matrices ['M_(m, n)]; where the
    code's behaviour depends on the run-time shape of an array (slicing,
    [np.squeeze]) arrays are sequences with an explicit shape. *)

From HB Require Import structures.
From Stdlib Require Import Reals Lra Epsilon FunctionalExtensionality.

(** The Standard Library's [lra] on [R], named before MathComp's tactic of
    the same name is loaded. *)
Ltac std_lra := lra.

From mathcomp Require Import boot order algebra.

Set Implicit Arguments.
Unset Strict Implicit.
Unset Printing Implicit Defensive.
Set Warnings "-rewrite-rw".

Delimit Scope R_scope with coqR.
Bind Scope ring_scope with R.

Import Order.TTheory GRing.Theory Num.Theory.
Local Open Scope ring_scope.

(** ** Part I. The numbers: [float64] as [R], [complex128] as pairs of reals *)

(** *** [R] as a MathComp real field *)

Definition eqr (x y : R) : bool := if Req_dec_T x y then true else false.

Lemma eqrP : Equality.axiom eqr.
Proof. by move=> x y; rewrite /eqr; case: (Req_dec_T x y) => h; constructor. Qed.

HB.instance Definition _ := hasDecEq.Build R eqrP.

Definition pickR (P : pred R) (_ : nat) : option R :=
  let x := epsilon (inhabits R0) (fun y => is_true (P y)) in
  if P x then Some x else None.

Lemma pickR_some (P : pred R) (n : nat) (x : R) : pickR P n = Some x -> P x.
Proof. by rewrite /pickR; case: ifP => // Px [<-]. Qed.

Lemma pickR_ex (P : pred R) : (exists x, P x) -> exists n, pickR P n.
Proof.
move=> exP; exists 0%N; rewrite /pickR.
by rewrite (epsilon_spec (inhabits R0) (fun y => is_true (P y)) exP).
Qed.

Lemma pickR_ext (P Q : pred R) : P =1 Q -> pickR P =1 pickR Q.
Proof.
move=> PQ n; have -> // : P = Q.
exact: functional_extensionality.
Qed.

HB.instance Definition _ := hasChoice.Build R pickR_some pickR_ex pickR_ext.

Lemma RplusA : associative Rplus.
Proof. by move=> x y z; rewrite Rplus_assoc. Qed.

Lemma RmultA : associative Rmult.
Proof. by move=> x y z; rewrite Rmult_assoc. Qed.

HB.instance Definition _ :=
  GRing.isZmodule.Build R RplusA Rplus_comm Rplus_0_l Rplus_opp_l.

Lemma R1_neq0_bool : R1 != 0 :> R.
Proof. by apply/eqP; exact: R1_neq_R0. Qed.

HB.instance Definition _ :=
  GRing.Zmodule_isComNzRing.Build R
    RmultA Rmult_comm Rmult_1_l Rmult_plus_distr_r R1_neq0_bool.

Lemma RmultVf (x : R) : x != 0 -> Rmult (Rinv x) x = 1.
Proof. by move/eqP => x0; rewrite Rinv_l. Qed.

HB.instance Definition _ := GRing.ComNzRing_isField.Build R RmultVf Rinv_0.

Definition Rleb (x y : R) : bool := if Rle_dec x y then true else false.
Definition Rltb (x y : R) : bool := if Rlt_dec x y then true else false.

Lemma RlebP (x y : R) : reflect (Rle x y) (Rleb x y).
Proof. by rewrite /Rleb; case: (Rle_dec x y) => h; constructor. Qed.

Lemma RltbP (x y : R) : reflect (Rlt x y) (Rltb x y).
Proof. by rewrite /Rltb; case: (Rlt_dec x y) => h; constructor. Qed.

Section RealOrderFacts.
Implicit Types x y : R.

Lemma Rleb0_add x y : Rleb 0 x -> Rleb 0 y -> Rleb 0 (x + y).
Proof. by move=> /RlebP hx /RlebP hy; apply/RlebP; exact: Rplus_le_le_0_compat. Qed.

Lemma Rleb0_mul x y : Rleb 0 x -> Rleb 0 y -> Rleb 0 (x * y).
Proof. by move=> /RlebP hx /RlebP hy; apply/RlebP; exact: Rmult_le_pos. Qed.

Lemma Rleb0_anti x : Rleb 0 x -> Rleb x 0 -> x = 0.
Proof. by move=> /RlebP hx /RlebP hy; exact: Rle_antisym. Qed.

Lemma Rleb_sub_ge0 x y : Rleb 0 (y - x) = Rleb x y.
Proof.
apply/RlebP/RlebP; rewrite /GRing.add /GRing.opp /GRing.zero /=; std_lra.
Qed.

Lemma Rleb0_total x : Rleb 0 x || Rleb x 0.
Proof.
case: (Rle_dec 0 x) => h; first by rewrite (introT (RlebP _ _) h).
by apply/orP; right; apply/RlebP; rewrite /GRing.zero /= in h *; std_lra.
Qed.

Lemma RabsN x : Rabs (- x) = Rabs x.
Proof. exact: Rabs_Ropp. Qed.

Lemma Rabs_ge0 x : Rleb 0 x -> Rabs x = x.
Proof. by move=> /RlebP h; exact: Rabs_pos_eq. Qed.

Lemma Rltb_def x y : Rltb x y = (y != x) && Rleb x y.
Proof.
apply/RltbP/andP => [h | [/eqP h1 /RlebP h2]].
  by split; [apply/eqP => e; rewrite e in h; std_lra | apply/RlebP; std_lra].
by case: h2 => // e; case: h1.
Qed.

End RealOrderFacts.

HB.instance Definition _ :=
  Num.IntegralDomain_isLeReal.Build R
    Rleb0_add Rleb0_mul Rleb0_anti Rleb_sub_ge0 Rleb0_total
    RabsN Rabs_ge0 Rltb_def.

(** *** [complex128]: pairs of reals with the usual field operations *)

Record complex : Type := Cx { re : R; im : R }.

Definition complex_to_pair (z : complex) : R * R := (re z, im z).
Definition pair_to_complex (p : R * R) : complex := Cx p.1 p.2.

Lemma complex_pairK : cancel complex_to_pair pair_to_complex.
Proof. by case. Qed.

HB.instance Definition _ := Choice.copy complex (can_type complex_pairK).

Definition addc (a b : complex) : complex := Cx (re a + re b) (im a + im b).
Definition oppc (a : complex) : complex := Cx (- re a) (- im a).
Definition mulc (a b : complex) : complex :=
  Cx (re a * re b - im a * im b) (re a * im b + im a * re b).
Definition normsq (a : complex) : R := re a * re a + im a * im a.
Definition invc (a : complex) : complex :=
  Cx (re a / normsq a) (- im a / normsq a).

(** [z.conj()] *)
Definition conjc (a : complex) : complex := Cx (re a) (- im a).

(** [abs(z)] *)
Definition cabs (a : complex) : R := sqrt (normsq a).

(** Promotion of a [float64] to [complex128], and the literal [1j]. *)
Definition of_real (x : R) : complex := Cx x 0.
Definition Ci : complex := Cx 0 1.

Ltac csimp := cbn [re im addc oppc mulc invc conjc].

Section ComplexField.
Implicit Types a b c : complex.

Lemma eq_complex a b : re a = re b -> im a = im b -> a = b.
Proof. by case: a b => [x y] [x' y'] /= -> ->. Qed.

Lemma addcA : associative addc.
Proof. by move=> a b c; apply: eq_complex; csimp; ring. Qed.

Lemma addcC : commutative addc.
Proof. by move=> a b; apply: eq_complex; csimp; ring. Qed.

Lemma add0c : left_id (Cx 0 0) addc.
Proof. by move=> a; apply: eq_complex; csimp; ring. Qed.

Lemma addNc : left_inverse (Cx 0 0) oppc addc.
Proof. by move=> a; apply: eq_complex; csimp; ring. Qed.

Lemma mulcA : associative mulc.
Proof. by move=> a b c; apply: eq_complex; csimp; ring. Qed.

Lemma mulcC : commutative mulc.
Proof. by move=> a b; apply: eq_complex; csimp; ring. Qed.

Lemma mul1c : left_id (Cx 1 0) mulc.
Proof. by move=> a; apply: eq_complex; csimp; ring. Qed.

Lemma mulcDl : left_distributive mulc addc.
Proof. by move=> a b c; apply: eq_complex; csimp; ring. Qed.

Lemma onec_neq0 : Cx 1 0 != Cx 0 0.
Proof. by apply/eqP => -[] /eqP; rewrite oner_eq0. Qed.

Lemma normsq_ge0 a : 0 <= normsq a.
Proof. by rewrite /normsq addr_ge0 // -expr2 sqr_ge0. Qed.

Lemma normsq_eq0 a : (normsq a == 0) = (a == Cx 0 0).
Proof.
rewrite /normsq -!expr2 paddr_eq0 ?sqr_ge0 // !sqrf_eq0.
by case: a => x y /=; apply/andP/eqP => [[/eqP-> /eqP->]|[-> ->]].
Qed.

End ComplexField.

HB.instance Definition _ :=
  GRing.isZmodule.Build complex addcA addcC add0c addNc.

HB.instance Definition _ :=
  GRing.Zmodule_isComNzRing.Build complex mulcA mulcC mul1c mulcDl onec_neq0.

Lemma mulVc (a : complex) : a != 0 -> invc a * a = 1.
Proof.
rewrite -[a != 0]/(a != Cx 0 0) -normsq_eq0 => n0.
have re1 : re (mulc (invc a) a) = normsq a / normsq a.
  by csimp; rewrite /normsq; ring.
have im1 : im (mulc (invc a) a) = 0 by csimp; ring.
by apply: eq_complex; rewrite ?re1 ?im1 ?divff.
Qed.

Lemma invc0 : invc 0 = 0.
Proof. by apply: eq_complex; rewrite -[0]/(Cx 0 0); csimp; rewrite ?oppr0 mul0r. Qed.

HB.instance Definition _ := GRing.ComNzRing_isField.Build complex mulVc invc0.

(** Componentwise reading of the field operations of [complex]. *)

Lemma re_add (a b : complex) : re (a + b) = re a + re b. Proof. by []. Qed.
Lemma im_add (a b : complex) : im (a + b) = im a + im b. Proof. by []. Qed.
Lemma re_mul (a b : complex) : re (a * b) = re a * re b - im a * im b.
Proof. by []. Qed.
Lemma im_mul (a b : complex) : im (a * b) = re a * im b + im a * re b.
Proof. by []. Qed.
Lemma re_0 : re 0 = 0. Proof. by []. Qed.
Lemma im_0 : im 0 = 0. Proof. by []. Qed.

Lemma mulc_conj (a : complex) : a * conjc a = of_real (normsq a).
Proof. by apply: eq_complex; rewrite ?re_mul ?im_mul /normsq /=; ring. Qed.

(** Conjugation and the promotion of reals are ring morphisms. *)

Lemma conjc_sub : {morph conjc : a b / a - b}.
Proof. by move=> a b; apply: eq_complex; rewrite /= ?opprD. Qed.

Lemma conjc_mul1 : (conjc 1 = 1) * {morph conjc : a b / a * b}.
Proof.
by split=> [|a b]; apply: eq_complex; rewrite ?re_mul ?im_mul /=; ring.
Qed.

HB.instance Definition _ :=
  GRing.isZmodMorphism.Build complex complex conjc conjc_sub.
HB.instance Definition _ :=
  GRing.isMonoidMorphism.Build complex complex conjc conjc_mul1.

Lemma of_real_sub : {morph of_real : x y / x - y}.
Proof. by move=> x y; apply: eq_complex; rewrite /= ?subr0. Qed.

Lemma of_real_mul1 : (of_real 1 = 1) * {morph of_real : x y / x * y}.
Proof.
by split=> [|x y] //; apply: eq_complex; rewrite ?re_mul ?im_mul /=; ring.
Qed.

HB.instance Definition _ :=
  GRing.isZmodMorphism.Build R complex of_real of_real_sub.
HB.instance Definition _ :=
  GRing.isMonoidMorphism.Build R complex of_real of_real_mul1.

(** ** Part II. The program *)

(** *** Exceptions raised by the numpy calls of the notebook *)

Inductive exn : Type :=
  | LinAlgError   (* np.linalg.inv: "Singular matrix" *)
  | ValueError    (* np.argmax: "attempt to get argmax of an empty sequence" *)
  | IndexError.   (* indexing out of bounds, indexing a 0-d array *)

Inductive result (T : Type) : Type :=
  | Ok (x : T)
  | Raise (e : exn).

Arguments Ok {T} x.
Arguments Raise {T} e.

Definition bind (T U : Type) (r : result T) (f : T -> result U) : result U :=
  match r with
  | Ok x => f x
  | Raise e => Raise e
  end.

Notation "x <- r ;; k" := (bind r (fun x => k))
  (at level 100, r at next level, right associativity).

Fixpoint mapM (T U : Type) (f : T -> result U) (xs : seq T) : result (seq U) :=
  match xs with
  | [::] => Ok [::]
  | x :: xs' => y <- f x ;; ys <- mapM f xs' ;; Ok (y :: ys)
  end.

(** *** Cell 2: the activation [s] and [one_hot]

<<
def s(x):
    return np.exp(1j*x)
>>
    [np.exp] on a complex number is [exp(re) * (cos(im) + 1j*sin(im))]. *)

Definition cexp (z : complex) : complex :=
  Cx (exp (re z) * cos (im z)) (exp (re z) * sin (im z)).

Definition s (x : R) : complex := cexp (Ci * of_real x).

(** numpy arrays whose number of dimensions is only known at run time
    (at most two here): [np.squeeze] and slicing depend on it. *)

Inductive ndarray : Type :=
  | Arr0 (x : R)                              (* shape ()               *)
  | Arr1 (v : seq R)                          (* shape (size v,)        *)
  | Arr2 (ncols : nat) (rows : seq (seq R)).  (* shape (size rows, ncols) *)

(** [np.eye(n)] *)
Definition eye_row (n i : nat) : seq R := [seq (i == j)%:R | j <- iota 0 n].
Definition eye (n : nat) : seq (seq R) := [seq eye_row n i | i <- iota 0 n].

(** [A[idx]] for a two-dimensional [A] with [ncols] columns and a
    one-dimensional array [idx] of unsigned integers (the labels loaded
    from the data set are [uint8]): the rows of [A] selected by [idx];
    an index past the last row raises [IndexError]. *)
Definition get_row (A : seq (seq R)) (l : nat) : result (seq R) :=
  if (l < size A)%N then Ok (nth [::] A l) else Raise IndexError.

Definition index_rows (ncols : nat) (A : seq (seq R)) (idx : seq nat) :
  result ndarray :=
  rows <- mapM (get_row A) idx ;; Ok (Arr2 ncols rows).

(** [np.squeeze(A)]: every axis of length one is removed. *)
Definition squeeze (A : ndarray) : ndarray :=
  match A with
  | Arr0 x => Arr0 x
  | Arr1 v => if v is [:: x] then Arr0 x else Arr1 v
  | Arr2 ncols rows =>
      match rows, ncols with
      | [:: r], 1%N => Arr0 (head 0 r)
      | [:: r], _ => Arr1 r
      | _, 1%N => Arr1 [seq head 0 r | r <- rows]
      | _, _ => Arr2 ncols rows
      end
  end.

(**
<<
def one_hot(a, num_classes):
    return np.squeeze(np.eye(num_classes)[a.reshape(-1)])
>>
    [a] is given by its flattening [a.reshape(-1)]. *)
Definition one_hot (a : seq nat) (num_classes : nat) : result ndarray :=
  A <- index_rows num_classes (eye num_classes) a ;; Ok (squeeze A).

(** Column [j] of a two-dimensional array given by its rows. *)
Definition column (rows : seq (seq R)) (j : nat) : seq R :=
  [seq nth 0 r j | r <- rows].

(** [A.T]: the identity below two dimensions. *)
Definition transpose (A : ndarray) : ndarray :=
  match A with
  | Arr2 ncols rows => Arr2 (size rows) [seq column rows j | j <- iota 0 ncols]
  | _ => A
  end.

(** [A[0:J]]: a slice along the first axis; a 0-d array has none. *)
Definition slice0 (J : nat) (A : ndarray) : result ndarray :=
  match A with
  | Arr0 _ => Raise IndexError
  | Arr1 v => Ok (Arr1 (take J v))
  | Arr2 ncols rows => Ok (Arr2 ncols (take J rows))
  end.

(** Cell 4: [Y = train_Y[0:J].T] with [train_Y = one_hot(train_y, nc)]. *)
Definition batch_Y (J : nat) (train_y : seq nat) (num_classes : nat) :
  result ndarray :=
  train_Y <- one_hot train_y num_classes ;;
  B <- slice0 J train_Y ;;
  Ok (transpose B).

(** *** Cell 3: reshaping the loaded images

<<
(train_X, train_y), (test_X, test_y) = mnist.load_data()
N = train_X.shape[0]
M = train_X.shape[1]**2
train_X = train_X.reshape(N,M)
test_X = test_X.reshape(test_X.shape[0],M)
>>
    The loaded image arrays are three-dimensional, of shape
    (size images, height, width). *)

Record array3 : Type := Array3 {
  height : nat;
  width : nat;
  images : seq (seq (seq R))
}.

(** The data agree with the shape. *)
Definition well_shaped (A : array3) : bool :=
  all (fun img => (size img == height A) &&
                  all (fun r => size r == width A) img) (images A).

(** [A.reshape(n, m)]: the entries in row-major order, cut into [n] rows
    of length [m]; a different number of entries raises [ValueError]. *)
Definition reshape2 (n m : nat) (A : array3) : result ndarray :=
  if (size (images A) * height A * width A == n * m)%N
  then Ok (Arr2 m (reshape (nseq n m) (flatten (flatten (images A)))))
  else Raise ValueError.

Definition load_reshape (train test : array3) : result (ndarray * ndarray) :=
  let N := size (images train) in
  let M := (height train ^ 2)%N in
  train_X <- reshape2 N M train ;;
  test_X <- reshape2 (size (images test)) M test ;;
  Ok (train_X, test_X).

(** *** Arrays of statically known shape: matrices *)

Section Shapes.
Variables (M K : nat).

(** Cell 5: [s(np.dot(X, w)).T] *)
Definition feature_map (n : nat) (X : 'M[R]_(n, M)) (w : 'M[R]_(M, K)) :
  'M[complex]_(K, n) :=
  (map_mx s (X *m w))^T.

(** [np.random.normal(loc, scale, (M, K))].  The state of the global
    generator is represented by the sequence [g] of standard normal
    deviates it is about to return; the array is filled in row-major
    order with [loc + scale * deviate]. *)
Definition rng : Type := nat -> R.

Definition normal (loc scale : R) (g : rng) : 'M[R]_(M, K) :=
  \matrix_(i, j) (loc + scale * g (i * K + j)%N).

(** [A[0:J]] for an array with [N] rows: its first [min(J, N)] rows. *)
Definition slice_rows (N : nat) (J : nat) (A : 'M[R]_(N, M)) :
  'M[R]_(minn J N, M) :=
  \matrix_(i, j) A (widen_ord (geq_minr J N) i) j.

End Shapes.

(** [S.conj().T] *)
Definition conjT (K n : nat) (S : 'M[complex]_(K, n)) : 'M[complex]_(n, K) :=
  (map_mx conjc S)^T.

(** [S @ S.conj().T + reg_param*np.identity(K)]; the real matrix
    [reg_param*np.identity(K)] is promoted to complex by the addition. *)
Definition gram (K n : nat) (S : 'M[complex]_(K, n)) (reg_param : R) :
  'M[complex]_K :=
  S *m conjT S + map_mx of_real (reg_param *: 1%:M).

(** [np.linalg.inv]: the inverse, or [LinAlgError] on a singular matrix. *)
Definition linalg_inv (K : nat) (A : 'M[complex]_K) : result 'M[complex]_K :=
  if A \in unitmx then Ok (invmx A) else Raise LinAlgError.

(** Cell 6:
<<
Theta = (Y @ S.conj().T) @ np.linalg.inv(S @ S.conj().T + reg_param*np.identity(K))
>> *)
Definition ridge_solve (c K n : nat) (Y : 'M[R]_(c, n))
    (S : 'M[complex]_(K, n)) (reg_param : R) : result 'M[complex]_(c, K) :=
  let YSH := map_mx of_real Y *m conjT S in
  B <- linalg_inv (gram S reg_param) ;;
  Ok (YSH *m B).

(** [np.argmax] along one axis scans the entries in index order and moves
    to a new index only on a strictly larger entry. *)
Fixpoint argmax_from (best : nat) (bv : R) (i : nat) (xs : seq R) : nat :=
  match xs with
  | [::] => best
  | x :: xs' =>
      if bv < x then argmax_from i x i.+1 xs' else argmax_from best bv i.+1 xs'
  end.

Definition argmax (xs : seq R) : result nat :=
  match xs with
  | [::] => Raise ValueError
  | x :: xs' => Ok (argmax_from 0 x 1 xs')
  end.

Definition mx_column (c n : nat) (A : 'M[R]_(c, n)) (j : 'I_n) : seq R :=
  [seq A i j | i <- enum 'I_c].

(** [np.argmax(A, axis=0)]: one index per column; an empty reduction axis
    raises [ValueError] whatever the number of columns. *)
Definition argmax_axis0 (c n : nat) (A : 'M[R]_(c, n)) : result (seq nat) :=
  if c is 0 then Raise ValueError
  else mapM (fun j => argmax (mx_column A j)) (enum 'I_n).

(** Cell 7: [np.argmax(np.real(Theta@S), axis=0)] *)
Definition predict (c K n : nat) (Theta : 'M[complex]_(c, K))
    (S : 'M[complex]_(K, n)) : result (seq nat) :=
  argmax_axis0 (map_mx re (Theta *m S)).

(** [(p == y).sum()]: the number of positions at which the two arrays
    agree.  The notebook compares arrays of the same length (one
    prediction per column of [S], one label per sample). *)
Definition eq_sum (p y : seq nat) : nat :=
  sumn [seq nat_of_bool (a.1 == a.2) | a <- zip p y].

(** A [float64] result: a real number, or [nan]/[inf]. *)
Inductive float64 : Type :=
  | Finite (x : R)
  | NonFinite.

(** [k/d] for two integers: numpy's true division; a zero divisor gives
    [nan] or [inf] (with a warning, not an exception). *)
Definition true_divide (k d : nat) : float64 :=
  if d is 0 then NonFinite else Finite (k%:R / d%:R).

(** [train_pred] and [test_pred] of cell 7:
<<
train_pred = (np.argmax(np.real(f_insample),axis=0) == train_y[0:J]).sum()/J
test_pred = (np.argmax(np.real(f_outsample),axis=0) == test_y).sum()/10000
>> *)
Definition train_pred (c K n : nat) (Theta : 'M[complex]_(c, K))
    (S : 'M[complex]_(K, n)) (train_y : seq nat) (J : nat) : result float64 :=
  p <- predict Theta S ;; Ok (true_divide (eq_sum p (take J train_y)) J).

Definition test_pred (c K n : nat) (Theta : 'M[complex]_(c, K))
    (S_test : 'M[complex]_(K, n)) (test_y : seq nat) : result float64 :=
  p <- predict Theta S_test ;; Ok (true_divide (eq_sum p test_y) 10000).

(** *** The four stages in sequence

    Cells 5 to 7 on a prepared batch [X], [Y] with its labels and on the
    test set: the basis is drawn from the global generator [g], which the
    notebook never seeds. *)

Record outcome (c K : nat) : Type := Outcome {
  Theta_of : 'M[complex]_(c, K);
  train_accuracy : float64;
  test_accuracy : float64
}.

Definition run (c M K n nt : nat) (sigma reg_param : R) (J : nat)
    (X : 'M[R]_(n, M)) (Y : 'M[R]_(c, n)) (train_y : seq nat)
    (test_X : 'M[R]_(nt, M)) (test_y : seq nat) (g : rng) :
  result (outcome c K) :=
  let w := normal M K 0 sigma g in
  let S := feature_map X w in
  let S_test := feature_map test_X w in
  Theta <- ridge_solve Y S reg_param ;;
  tr <- train_pred Theta S train_y J ;;
  te <- test_pred Theta S_test test_y ;;
  Ok (Outcome Theta tr te).

(** *** Vocabulary of the properties *)

(** A column with exactly one entry equal to 1 and the others equal to 0. *)
Definition one_hot_col (col : seq R) : bool :=
  (count (pred1 (1 : R)) col == 1%N) &&
  (count (pred1 (0 : R)) col + 1 == size col)%N.

(** [A] is a two-dimensional array of shape [(nc, n)] all of whose columns
    are one-hot and sum to 1. *)
Definition one_hot_columns (nc n : nat) (A : ndarray) : Prop :=
  exists rows,
    [/\ A = Arr2 n rows,
        size rows = nc,
        all (fun r => size r == n) rows
      & forall j, (j < n)%N ->
          one_hot_col (column rows j) /\ \sum_(x <- column rows j) x = 1].

(** The product of a row vector and a column vector. *)
Definition dot (M : nat) (u : 'rV[R]_M) (v : 'cV[R]_M) : R :=
  \sum_(m < M) u 0 m * v m 0.

(** The index returned on a non-empty sequence. *)
Definition argmax_idx (xs : seq R) : nat :=
  if xs is x :: xs' then argmax_from 0 x 1 xs' else 0%N.

(** The number of the [n] scored samples whose predicted class [p] equals
    the true label [y]. *)
Definition num_correct (n : nat) (p y : seq nat) : nat :=
  #|[pred j : 'I_n | nth 0%N p j == nth 0%N y j]|.

(** A finite value in the interval [0, 1]. *)
Definition in_unit_interval (f : float64) : Prop :=
  exists2 x : R, f = Finite x & 0 <= x <= 1.

(** The squared Frobenius norm of a complex matrix, and the objective of
    the least-squares problem stated above cell 1, with the squared norm of
    the weights: ||Y - T.S||^2 + lambda.||T||^2. *)
Definition fnorm2 (m n : nat) (A : 'M[complex]_(m, n)) : R :=
  \sum_i \sum_j normsq (A i j).

Definition objective (c K n : nat) (Y : 'M[R]_(c, n))
    (S : 'M[complex]_(K, n)) (lambda : R) (T : 'M[complex]_(c, K)) : R :=
  fnorm2 (map_mx of_real Y - T *m S) + lambda * fnorm2 T.

(** ** Part III. Properties *)

(** *** The activation and the Feature Mapper *)

Lemma Ci_mul_real (x : R) : Ci * of_real x = Cx 0 x.
Proof. by apply: eq_complex; rewrite ?re_mul ?im_mul /=; ring. Qed.

(** Euler form of the activation: [s(x) = cos x + 1j * sin x]. *)
Lemma s_euler (x : R) : s x = Cx (cos x) (sin x).
Proof. by rewrite /s Ci_mul_real /cexp /= exp_0 !mul1r. Qed.

Lemma normsq_s (x : R) : normsq (s x) = 1.
Proof.
rewrite s_euler /normsq /= addrC.
exact: (sin2_cos2 x).
Qed.

Lemma cabs_s (x : R) : cabs (s x) = 1.
Proof. by rewrite /cabs normsq_s; exact: sqrt_1. Qed.

(** C2. The Feature Mapper returns the K x n matrix whose (k, j) entry is
    exp(i * d) = cos d + i * sin d for d = row j of X . column k of the
    basis: it is the transpose of the elementwise image by
    z |-> exp(i * z) = cos z + i * sin z of the product X . Basis. *)
Theorem feature_map_entry (M K n : nat) (X : 'M[R]_(n, M)) (w : 'M[R]_(M, K))
    (k : 'I_K) (j : 'I_n) :
  let d := dot (row j X) (col k w) in
  feature_map X w k j = Cx (cos d) (sin d) /\
  feature_map X w = (map_mx (fun z => Cx (cos z) (sin z)) (X *m w))^T.
Proof.
move=> d; split.
  rewrite /feature_map !mxE s_euler /d /dot.
  have -> // : \sum_j0 X j j0 * w j0 k = \sum_(m < M) row j X 0 m * col k w m 0.
  by apply: eq_bigr => m _; rewrite !mxE.
by apply/matrixP => a b; rewrite /feature_map !mxE s_euler.
Qed.

(** C3. Every entry of the Feature Matrix of a real input matrix and a
    real projection basis has modulus exactly 1. *)
Theorem feature_map_unit_modulus (M K n : nat) (X : 'M[R]_(n, M))
    (w : 'M[R]_(M, K)) (k : 'I_K) (j : 'I_n) :
  cabs (feature_map X w k j) = 1.
Proof. by rewrite /feature_map !mxE cabs_s. Qed.

(** *** The Ridge Solver *)

Section Ridge.
Variables (K n : nat).
Implicit Types (S : 'M[complex]_(K, n)) (lambda : R).

(** The matrix inverted by the solver is S.S^H + lambda.I_K. *)
Lemma gramE S lambda :
  gram S lambda = S *m (map_mx conjc S)^T + (of_real lambda)%:M.
Proof.
rewrite /gram /conjT; congr (_ + _).
by rewrite -mul_scalar_mx mulmx1 map_scalar_mx.
Qed.

Lemma conjT_mul (m p q : nat) (A : 'M[complex]_(m, p)) (B : 'M_(p, q)) :
  conjT (A *m B) = conjT B *m conjT A.
Proof. by rewrite /conjT map_mxM trmx_mul. Qed.

(** [u . u^H] is the sum of the squared moduli of the entries of [u]. *)
Lemma row_mul_conjT (p : nat) (u : 'rV[complex]_p) :
  (u *m conjT u) 0 0 = of_real (\sum_j normsq (u 0 j)).
Proof.
rewrite mxE raddf_sum; apply: eq_bigr => j _.
by rewrite !mxE mulc_conj.
Qed.

(** The quadratic form of the regularised Gram matrix. *)
Lemma gram_form S lambda (v : 'rV[complex]_K) :
  re ((v *m gram S lambda *m conjT v) 0 0)
    = \sum_j normsq ((v *m S) 0 j) + lambda * \sum_k normsq (v 0 k).
Proof.
rewrite gramE -/(conjT S) mulmxDr mulmxDl mulmxA -[v *m S *m _ *m _]mulmxA.
rewrite -conjT_mul mul_mx_scalar -scalemxAl [in LHS]mxE.
rewrite [X in _ + X]mxE !row_mul_conjT re_add re_mul /=.
by rewrite mul0r subr0.
Qed.

(** For a positive regularisation the Gram matrix has a trivial kernel. *)
Lemma gram_ker0 S lambda (v : 'rV[complex]_K) :
  0 < lambda -> v *m gram S lambda = 0 -> v = 0.
Proof.
move=> lam_gt0 vG0.
have sum_ge0 (p : nat) (u : 'rV[complex]_p) : 0 <= \sum_j normsq (u 0 j).
  by apply: sumr_ge0 => j _; exact: normsq_ge0.
have := gram_form S lambda v; rewrite vG0 mul0mx mxE re_0 => /esym /eqP.
rewrite paddr_eq0 ?mulr_ge0 ?(ltW lam_gt0) //.
case/andP=> _; rewrite mulf_eq0 (gt_eqF lam_gt0) /= => /eqP sum0.
apply/rowP => k; rewrite mxE; apply/eqP; rewrite -[_ == 0]normsq_eq0.
by apply/eqP; apply: (psumr_eq0P _ sum0) => // i _; exact: normsq_ge0.
Qed.

Lemma gram_unit S lambda : 0 < lambda -> gram S lambda \in unitmx.
Proof.
move=> lam_gt0; rewrite -row_free_unit -kermx_eq0; apply/eqP.
apply/row_matrixP => i; rewrite row0.
by apply: (@gram_ker0 S lambda) => //; rewrite -row_mul mulmx_ker row0.
Qed.

End Ridge.

(** C1. For lambda > 0 the Ridge Solver returns a weight matrix, equal to
    Y . S^H . (S.S^H + lambda.I_K)^-1 where the inverse is a two-sided
    inverse; equivalently Theta . (S.S^H + lambda.I) = Y . S^H. *)
Theorem ridge_normal_equations (c K n : nat) (Y : 'M[R]_(c, n))
    (S : 'M[complex]_(K, n)) (lambda : R) :
  0 < lambda ->
  let SH := (map_mx conjc S)^T in
  let G := S *m SH + (of_real lambda)%:M in
  let YC := map_mx of_real Y in
  exists Theta : 'M[complex]_(c, K),
    [/\ ridge_solve Y S lambda = Ok Theta,
        invmx G *m G = 1%:M /\ G *m invmx G = 1%:M,
        Theta = YC *m SH *m invmx G
      & Theta *m G = YC *m SH].
Proof.
move=> lam_gt0 SH G YC.
have Gunit : G \in unitmx by rewrite /G /SH -gramE gram_unit.
exists (YC *m SH *m invmx G); split=> //.
- by rewrite /ridge_solve /linalg_inv gramE -/SH -/G Gunit.
- by rewrite mulVmx // mulmxV.
- by rewrite mulmxKV.
Qed.

(** [ridge_normal_equations] at one feature, one sample, one class and
    lambda = 2, the value configured in the notebook. *)
Lemma ridge_normal_equations_witness :
  (0 < (2 : R)) /\
  exists Theta : 'M[complex]_(1, 1),
    ridge_solve (1%:M : 'M[R]_1) (1%:M : 'M[complex]_1) 2 = Ok Theta.
Proof.
have lam : 0 < (2 : R) by rewrite ltr0n.
split=> //.
have [Theta [eqT _ _ _]] :=
  @ridge_normal_equations 1 1 1 1%:M 1%:M 2 lam.
by exists Theta.
Defined.

(** *** The Predictor: [argmax] *)

Lemma bind_Ok (T U : Type) (x : T) (f : T -> result U) : bind (Ok x) f = f x.
Proof. by []. Qed.

Lemma mapM_ok (T U : Type) (f : T -> result U) (g : T -> U) (xs : seq T) :
  (forall x, f x = Ok (g x)) -> mapM f xs = Ok [seq g x | x <- xs].
Proof. by move=> fg; elim: xs => //= x xs ->; rewrite fg. Qed.

Lemma argmax_ok (xs : seq R) :
  (0 < size xs)%N -> argmax xs = Ok (argmax_idx xs).
Proof. by case: xs. Qed.

(** Invariant of the scan: [pre] has been read, [best] is the first index
    of its maximum [bv]. *)
Lemma argmax_fromP (pre xs : seq R) (best : nat) (bv : R) :
    (best < size pre)%N -> nth 0 pre best = bv ->
    (forall k, (k < size pre)%N -> nth 0 pre k <= bv) ->
    (forall k, (k < best)%N -> nth 0 pre k < bv) ->
  let r := argmax_from best bv (size pre) xs in
  let ys := pre ++ xs in
  [/\ (r < size ys)%N,
      forall k, (k < size ys)%N -> nth 0 ys k <= nth 0 ys r
    & forall k, (k < r)%N -> nth 0 ys k < nth 0 ys r].
Proof.
elim: xs pre best bv => [|x xs IH] pre best bv lt_best nth_best le_bv lt_bv.
  by rewrite /= cats0 nth_best.
rewrite /= -cat_rcons -(size_rcons pre x).
have nth_pre k : (k < size pre)%N -> nth 0 (rcons pre x) k = nth 0 pre k.
  by move=> lt_k; rewrite nth_rcons lt_k.
case: ifPn => [lt_x | le_x]; apply: IH.
- by rewrite size_rcons.
- by rewrite nth_rcons ltnn eqxx.
- move=> k; rewrite size_rcons ltnS leq_eqVlt => /orP [/eqP-> | lt_k].
    by rewrite nth_rcons ltnn eqxx.
  by rewrite nth_pre // ltW // (le_lt_trans (le_bv k lt_k)).
- by move=> k lt_k; rewrite nth_pre // (le_lt_trans (le_bv k lt_k)).
- by rewrite size_rcons ltnS ltnW.
- by rewrite nth_pre.
- move=> k; rewrite size_rcons ltnS leq_eqVlt => /orP [/eqP-> | lt_k].
    by rewrite nth_rcons ltnn eqxx leNgt.
  by rewrite nth_pre // le_bv.
- by move=> k lt_k; rewrite nth_pre ?lt_bv // (ltn_trans lt_k).
Qed.

(** [argmax] returns the first index of the maximum. *)
Lemma argmax_idxP (xs : seq R) :
  (0 < size xs)%N ->
  [/\ (argmax_idx xs < size xs)%N,
      forall k, (k < size xs)%N -> nth 0 xs k <= nth 0 xs (argmax_idx xs)
    & forall k, (k < argmax_idx xs)%N -> nth 0 xs k < nth 0 xs (argmax_idx xs)].
Proof.
case: xs => // x xs _.
have := @argmax_fromP [:: x] xs 0%N x (ltn0Sn 0) (erefl _).
apply=> // k; rewrite /= ltnS leqn0 => /eqP->.
exact: lexx.
Qed.

Lemma size_mx_column (c n : nat) (A : 'M[R]_(c, n)) (j : 'I_n) :
  size (mx_column A j) = c.
Proof. by rewrite size_map size_enum_ord. Qed.

Lemma nth_mx_column (c n : nat) (A : 'M[R]_(c, n)) (j : 'I_n) (i : 'I_c) :
  nth 0 (mx_column A j) i = A i j.
Proof. by rewrite (nth_map i) ?size_enum_ord // nth_ord_enum. Qed.

Lemma argmax_axis0_ok (c n : nat) (A : 'M[R]_(c, n)) :
  (0 < c)%N ->
  argmax_axis0 A = Ok [seq argmax_idx (mx_column A j) | j <- enum 'I_n].
Proof.
case: c A => // c A _; rewrite /argmax_axis0.
by apply: mapM_ok => j; rewrite argmax_ok // size_mx_column.
Qed.

Lemma predict_ok (c K n : nat) (Theta : 'M[complex]_(c, K))
    (S : 'M[complex]_(K, n)) :
  (0 < c)%N ->
  predict Theta S
    = Ok [seq argmax_idx (mx_column (map_mx re (Theta *m S)) j)
         | j <- enum 'I_n].
Proof. exact: argmax_axis0_ok. Qed.

Lemma predict_total (c K n : nat) (Theta : 'M[complex]_(c, K))
    (S : 'M[complex]_(K, n)) :
  (0 < c)%N -> exists2 p : seq nat, predict Theta S = Ok p & size p = n.
Proof.
move=> c_gt0; rewrite predict_ok //; eexists; first by [].
by rewrite size_map size_enum_ord.
Qed.

(** With a single class every prediction is class 0. *)
Lemma predict_one_class (K n : nat) (Theta : 'M[complex]_(1, K))
    (S : 'M[complex]_(K, n)) :
  predict Theta S = Ok [seq 0%N | j <- enum 'I_n].
Proof.
rewrite predict_ok //; congr Ok; apply: eq_map => j.
by rewrite /mx_column enum_ordSl enum_ord0.
Qed.

(** A tie between rows 1 and 2 is resolved in favour of row 1. *)
Example argmax_tie : argmax [:: 1; 3; 3; 2] = Ok 1%N.
Proof. by rewrite /argmax /= !(ltr_nat, ltr1n). Qed.

(** C5. For each column of the score matrix Theta.S the Predictor returns
    the row index of the maximum of the real parts, and among the rows
    attaining the maximum the lowest index. *)
Theorem predict_first_max (c K n : nat) (Theta : 'M[complex]_(c, K))
    (S : 'M[complex]_(K, n)) :
  (0 < c)%N ->
  exists p : seq nat,
    [/\ predict Theta S = Ok p,
        size p = n
      & forall j : 'I_n, exists r : 'I_c,
          [/\ nth 0%N p j = r,
              forall i : 'I_c, re ((Theta *m S) i j) <= re ((Theta *m S) r j)
            & forall i : 'I_c, (i < r)%N ->
                re ((Theta *m S) i j) < re ((Theta *m S) r j)]].
Proof.
move=> c_gt0; rewrite predict_ok //; eexists; split; first by [].
  by rewrite size_map size_enum_ord.
move=> j; set A := map_mx re (Theta *m S).
have [] := @argmax_idxP (mx_column A j); first by rewrite size_mx_column.
rewrite size_mx_column => lt_r le_max lt_first.
exists (Ordinal lt_r); split.
- by rewrite (nth_map j) ?size_enum_ord // nth_ord_enum.
- move=> i; have := le_max i (ltn_ord i).
  by rewrite nth_mx_column (nth_mx_column A j (Ordinal lt_r)) !mxE.
- move=> i lt_i; have := lt_first i lt_i.
  by rewrite nth_mx_column (nth_mx_column A j (Ordinal lt_r)) !mxE.
Qed.

(** *** The Scorer: accuracy *)

Lemma eq_sumE (n : nat) (p y : seq nat) :
  size p = n -> size y = n -> eq_sum p y = num_correct n p y.
Proof.
move=> size_p size_y; rewrite /eq_sum /num_correct sumnE big_map.
rewrite (big_nth (0%N, 0%N)) size_zip size_p size_y minnn big_mkord.
rewrite -sum1_card [RHS]big_mkcond /=; apply: eq_bigr => j _.
by rewrite nth_zip ?size_p ?size_y //=; case: eqP.
Qed.

Lemma num_correct_le (n : nat) (p y : seq nat) : (num_correct n p y <= n)%N.
Proof. by rewrite -[X in (_ <= X)%N](card_ord n) /num_correct max_card. Qed.

Lemma ratio_in_unit (k n : nat) :
  (0 < n)%N -> (k <= n)%N -> 0 <= (k%:R / n%:R : R) <= 1.
Proof.
move=> n_gt0 le_kn; apply/andP; split.
  by rewrite divr_ge0 ?ler0n.
by rewrite ler_pdivrMr ?ltr0n // mul1r ler_nat.
Qed.

Lemma true_divide_pos (k d : nat) :
  (0 < d)%N -> true_divide k d = Finite (k%:R / d%:R).
Proof. by case: d. Qed.

(** C4, as the code has it.  The training accuracy is the number of batch
    columns whose predicted class equals the true label divided by the
    configured batch size J, the test accuracy is the number of such test
    columns divided by the constant 10000.  The training value lies in
    [0, 1] for every J >= 1, the test value whenever the test set has at
    most 10000 samples.  The denominators are the numbers of samples
    scored when the batch holds exactly J >= 1 samples and the test set
    exactly 10000 samples. *)
Theorem scorer_accuracy (c K n nt J : nat) (Theta : 'M[complex]_(c, K))
    (S : 'M[complex]_(K, n)) (S_test : 'M[complex]_(K, nt))
    (train_y test_y : seq nat) :
  (0 < c)%N -> size (take J train_y) = n -> size test_y = nt ->
  exists p pt : seq nat,
    let k := num_correct n p (take J train_y) in
    let kt := num_correct nt pt test_y in
    [/\ predict Theta S = Ok p /\ predict Theta S_test = Ok pt,
        train_pred Theta S train_y J = Ok (true_divide k J) /\
        test_pred Theta S_test test_y = Ok (true_divide kt 10000),
        ((0 < J)%N -> in_unit_interval (true_divide k J)) /\
        ((nt <= 10000)%N -> in_unit_interval (true_divide kt 10000))
      & ((0 < n)%N -> n = J ->
           train_pred Theta S train_y J = Ok (Finite (k%:R / n%:R))) /\
        (nt = 10000%N ->
           test_pred Theta S_test test_y = Ok (Finite (kt%:R / nt%:R)))].
Proof.
move=> c_gt0 size_y size_ty.
have [p eq_p size_p] := predict_total Theta S c_gt0.
have [pt eq_pt size_pt] := predict_total Theta S_test c_gt0.
exists p, pt => k kt.
have eq_train : train_pred Theta S train_y J = Ok (true_divide k J).
  by rewrite /train_pred eq_p /= (eq_sumE size_p size_y).
have eq_test : test_pred Theta S_test test_y = Ok (true_divide kt 10000).
  by rewrite /test_pred eq_pt /= (eq_sumE size_pt size_ty).
have le_nJ : (n <= J)%N by rewrite -size_y size_take_min geq_minl.
have unit_train : (0 < J)%N -> in_unit_interval (true_divide k J).
  move=> J_gt0; rewrite true_divide_pos //; exists (k%:R / J%:R) => //.
  by rewrite ratio_in_unit // (leq_trans (num_correct_le _ _ _)).
have unit_test : (nt <= 10000)%N -> in_unit_interval (true_divide kt 10000).
  move=> le_nt; rewrite true_divide_pos //; exists (kt%:R / 10000%:R) => //.
  by rewrite ratio_in_unit // (leq_trans (num_correct_le _ _ _)).
split=> //; split=> [n_gt0 eq_nJ | eq_nt].
  by rewrite eq_train -eq_nJ true_divide_pos.
by rewrite eq_test true_divide_pos // -[in _%:R^-1]eq_nt.
Qed.

(** C10. When the configured batch size J exceeds the number N of training
    samples, the batch silently holds N rows, and the training accuracy is
    still the number of correct predictions divided by J: strictly less
    than the fraction of the N scored samples that are predicted correctly
    as soon as one of them is. *)
Theorem oversized_batch_accuracy (c M K N J : nat) (train_X : 'M[R]_(N, M))
    (train_y : seq nat) (w : 'M[R]_(M, K)) (Theta : 'M[complex]_(c, K)) :
  (0 < c)%N -> size train_y = N -> (N < J)%N ->
  let S := feature_map (slice_rows J train_X) w in
  exists p : seq nat,
    let k := num_correct N p train_y in
    [/\ minn J N = N /\ take J train_y = train_y,
        predict Theta S = Ok p /\ size p = N,
        train_pred Theta S train_y J = Ok (Finite (k%:R / J%:R))
      & (0 < k)%N -> (k%:R / J%:R : R) < k%:R / N%:R].
Proof.
move=> c_gt0 size_y lt_NJ S.
have eq_min : minn J N = N by apply/minn_idPr; exact: ltnW.
have eq_take : take J train_y = train_y.
  by rewrite take_oversize // size_y ltnW.
have [p eq_p size_p] := predict_total Theta S c_gt0.
rewrite eq_min in size_p.
exists p => k; split=> // [|k_gt0].
- rewrite /train_pred eq_p /= eq_take (eq_sumE size_p size_y).
  by rewrite true_divide_pos // (leq_ltn_trans _ lt_NJ).
- have N_gt0 : (0 < N)%N by rewrite (leq_trans k_gt0) // num_correct_le.
  rewrite ltr_pM2l ?ltr0n // ltf_pV2 ?posrE ?ltr0n ?ltr_nat //.
  exact: (ltn_trans N_gt0).
Qed.

(** [predict_first_max] at two classes, one feature and one sample. *)
Lemma predict_first_max_witness :
  (0 < 2)%N /\
  exists p : seq nat,
    predict (const_mx 1 : 'M[complex]_(2, 1)) (1%:M : 'M[complex]_1) = Ok p /\
    size p = 1%N.
Proof.
split=> //.
have [p [eq_p size_p _]] :=
  @predict_first_max 2 1 1 (const_mx 1) 1%:M (ltn0Sn 1).
by exists p.
Defined.

(** With a single class and all labels 0 every sample is predicted
    correctly, and the test accuracy is the number of samples over 10000. *)
Lemma test_pred_one_class (K nt : nat) (Theta : 'M[complex]_(1, K))
    (S_test : 'M[complex]_(K, nt)) :
  num_correct nt [seq 0%N | j <- enum 'I_nt] (nseq nt 0%N) = nt /\
  test_pred Theta S_test (nseq nt 0%N) = Ok (true_divide nt 10000).
Proof.
have eq_k : num_correct nt [seq 0%N | j <- enum 'I_nt] (nseq nt 0%N) = nt.
  rewrite /num_correct -[RHS]card_ord; apply: eq_card => j.
  by rewrite !inE (nth_map j) ?size_enum_ord // nth_nseq ltn_ord eqxx.
split=> //; rewrite /test_pred predict_one_class bind_Ok.
rewrite (@eq_sumE nt) ?eq_k //; first by rewrite size_map size_enum_ord.
by rewrite size_nseq.
Qed.

(** One test sample, correctly predicted: the fraction of correct
    predictions is 1/1, the reported test accuracy is 1/10000.  Twenty
    thousand test samples, all correctly predicted: the reported test
    accuracy is 20000/10000, outside [0, 1]. *)
Lemma scorer_accuracy_counterexample :
  (let Theta := 1%:M : 'M[complex]_1 in
   let S_test := 1%:M : 'M[complex]_1 in
   let test_y := [:: 0%N] in
   exists pt : seq nat,
     [/\ predict Theta S_test = Ok pt,
         size test_y = 1%N /\ num_correct 1 pt test_y = 1%N,
         test_pred Theta S_test test_y = Ok (Finite (1 / 10000%:R))
       & test_pred Theta S_test test_y
           <> Ok (Finite ((num_correct 1 pt test_y)%:R / 1%:R))]) /\
  (let Theta := 1%:M : 'M[complex]_1 in
   let S_test := const_mx 1 : 'M[complex]_(1, 20000) in
   let test_y := nseq 20000 0%N in
   [/\ size test_y = 20000%N,
       test_pred Theta S_test test_y = Ok (Finite (20000%:R / 10000%:R)),
       1 < (20000%:R / 10000%:R : R)
     & ~ in_unit_interval (Finite (20000%:R / 10000%:R))]).
Proof.
split.
  move=> Theta S_test test_y; exists [:: 0%N].
  have eq_p : predict Theta S_test = Ok [:: 0%N].
    by rewrite predict_one_class enum_ordSl enum_ord0.
  have eq_k : num_correct 1 [:: 0%N] test_y = 1%N by rewrite -(@eq_sumE 1).
  have eq_t : test_pred Theta S_test test_y = Ok (Finite (1 / 10000%:R)).
    by rewrite /test_pred eq_p.
  split=> //; rewrite eq_t eq_k => -[] /eqP.
  by rewrite divr1 div1r invr_eq1 (eqr_nat R 10000 1).
move=> Theta S_test test_y.
have gt1 : 1 < (20000%:R / 10000%:R : R).
  by rewrite ltr_pdivlMr ?ltr0n // mul1r ltr_nat.
have eq_t : test_pred Theta S_test test_y
    = Ok (Finite (20000%:R / 10000%:R)).
  by have [_ ->] := test_pred_one_class Theta S_test.
split; [by rewrite size_nseq | exact: eq_t | exact: gt1 |].
by case=> x [<-] /andP [_]; rewrite leNgt gt1.
Qed.

(** [scorer_accuracy] at one class, one training and one test sample. *)
Lemma scorer_accuracy_witness :
  [/\ (0 < 1)%N, size (take 1 [:: 0%N]) = 1%N & size [:: 0%N] = 1%N] /\
  exists p pt : seq nat,
    predict (1%:M : 'M[complex]_1) (1%:M : 'M[complex]_1) = Ok p /\
    predict (1%:M : 'M[complex]_1) (1%:M : 'M[complex]_1) = Ok pt.
Proof.
split=> //.
have [p [pt [eq_p _ _ _]]] :=
  @scorer_accuracy 1 1 1 1 1 1%:M 1%:M 1%:M [:: 0%N] [:: 0%N]
    (ltn0Sn 0) (erefl _) (erefl _).
by exists p, pt.
Defined.

(** [oversized_batch_accuracy] at N = 1 training sample and J = 2. *)
Lemma oversized_batch_accuracy_witness :
  [/\ (0 < 1)%N, size [:: 0%N] = 1%N & (1 < 2)%N] /\
  exists p : seq nat,
    train_pred (1%:M : 'M[complex]_1)
      (feature_map (slice_rows 2 (1%:M : 'M[R]_1)) (1%:M : 'M[R]_1))
      [:: 0%N] 2
    = Ok (Finite ((num_correct 1 p [:: 0%N])%:R / 2%:R)).
Proof.
split=> //.
have [p [_ _ eq_t _]] :=
  @oversized_batch_accuracy 1 1 1 1 2 1%:M [:: 0%N] 1%:M 1%:M
    (ltn0Sn 0) (erefl _) (ltnSn 1).
by exists p.
Defined.

(** *** The solver on one feature and one sample, in closed form *)

Lemma gram11 (z : complex) (lambda : R) :
  gram (z%:M : 'M_1) lambda = (of_real (normsq z + lambda))%:M.
Proof.
rewrite gramE map_scalar_mx tr_scalar_mx -scalar_mxM mulc_conj.
by rewrite -raddfD /= -rmorphD.
Qed.

Lemma unitmx_scalar11 (a : complex) : ((a%:M : 'M_1) \in unitmx) = (a != 0).
Proof. by rewrite unitmxE det_scalar1 unitfE. Qed.

Lemma of_real_eq0 (x : R) : (of_real x == 0) = (x == 0).
Proof. by apply/eqP/eqP => [[]|->]. Qed.

Lemma ridge11 (y : R) (z : complex) (lambda : R) :
  ridge_solve (y%:M : 'M_1) (z%:M : 'M_1) lambda
    = if normsq z + lambda == 0 then Raise LinAlgError
      else Ok ((of_real y * conjc z / of_real (normsq z + lambda))%:M).
Proof.
rewrite /ridge_solve /linalg_inv gram11 unitmx_scalar11 of_real_eq0.
case: (normsq z + lambda == 0) => //; cbn [negb bind].
rewrite invmx_scalar /conjT !map_scalar_mx tr_scalar_mx.
by rewrite -!scalar_mxM.
Qed.



(** ... and one for which the regularised matrix is singular. *)
Example ridge_negative_lambda_singular :
  ridge_solve (1%:M : 'M[R]_1) (1%:M : 'M[complex]_1) (- 1)
    = Raise LinAlgError.
Proof.
rewrite ridge11 ifT //; apply/eqP.
by rewrite /normsq /= mulr1 mulr0 addr0 subrr.
Qed.

(** *** The run of cells 5 to 7 *)

Lemma train_pred_total (c K n : nat) (Theta : 'M[complex]_(c, K))
    (S : 'M[complex]_(K, n)) (train_y : seq nat) (J : nat) :
  (0 < c)%N -> exists a, train_pred Theta S train_y J = Ok a.
Proof.
move=> c_gt0; have [p eq_p _] := predict_total Theta S c_gt0.
by rewrite /train_pred eq_p /=; eexists.
Qed.

Lemma test_pred_total (c K n : nat) (Theta : 'M[complex]_(c, K))
    (S : 'M[complex]_(K, n)) (test_y : seq nat) :
  (0 < c)%N -> exists a, test_pred Theta S test_y = Ok a.
Proof.
move=> c_gt0; have [p eq_p _] := predict_total Theta S c_gt0.
by rewrite /test_pred eq_p /=; eexists.
Qed.

(** Once the solve succeeds the run returns its weight matrix. *)
Lemma run_ok (c M K n nt : nat) (sigma reg_param : R) (J : nat)
    (X : 'M[R]_(n, M)) (Y : 'M[R]_(c, n)) (train_y : seq nat)
    (test_X : 'M[R]_(nt, M)) (test_y : seq nat) (g : rng)
    (Theta : 'M[complex]_(c, K)) :
  (0 < c)%N ->
  ridge_solve Y (feature_map X (normal M K 0 sigma g)) reg_param = Ok Theta ->
  exists tr te,
    run K sigma reg_param J X Y train_y test_X test_y g
      = Ok (Outcome Theta tr te).
Proof.
move=> c_gt0 eq_Theta; rewrite /run eq_Theta; cbn [bind].
set S := feature_map X _; set S_test := feature_map test_X _.
have [tr ->] := train_pred_total Theta S train_y J c_gt0.
have [te ->] := test_pred_total Theta S_test test_y c_gt0.
by exists tr, te.
Qed.

Lemma Rtwo_neq0 : (1 + 1 : R) != 0.
Proof. by apply/eqP => h; lra. Qed.

Lemma s_0 : s 0 = 1.
Proof.
by rewrite s_euler; apply: eq_complex => /=; [exact: cos_0 | exact: sin_0].
Qed.

(** *** [one_hot] *)

(** Two samples of three classes: a (2, 3) array; its batch of size 1. *)
Example one_hot_two_samples :
  one_hot [:: 2%N; 0%N] 3 = Ok (Arr2 3 [:: [:: 0; 0; 1]; [:: 1; 0; 0]]) /\
  batch_Y 1 [:: 2%N; 0%N] 3 = Ok (Arr2 1 [:: [:: 0]; [:: 0]; [:: 1]]).
Proof. by []. Qed.

(** A label outside [0, num_classes) is an indexing error. *)
Example one_hot_out_of_range : one_hot [:: 3%N] 3 = Raise IndexError.
Proof. by []. Qed.

Lemma size_eye_row (n l : nat) : size (eye_row n l) = n.
Proof. by rewrite size_map size_iota. Qed.

Lemma get_row_eye (n l : nat) :
  (l < n)%N -> get_row (eye n) l = Ok (eye_row n l).
Proof.
move=> lt_l; rewrite /get_row size_map size_iota lt_l.
by rewrite (nth_map 0%N) ?size_iota // nth_iota.
Qed.

Lemma index_rows_eye (n : nat) (a : seq nat) :
  all (fun l => l < n)%N a ->
  index_rows n (eye n) a = Ok (Arr2 n [seq eye_row n l | l <- a]).
Proof.
rewrite /index_rows => in_range.
suff -> : mapM (get_row (eye n)) a = Ok [seq eye_row n l | l <- a] by [].
elim: a in_range => //= l a IH /andP [lt_l in_range].
by rewrite get_row_eye // IH.
Qed.

Lemma squeeze_matrix (ncols : nat) (rows : seq (seq R)) :
  size rows != 1%N -> ncols != 1%N ->
  squeeze (Arr2 ncols rows) = Arr2 ncols rows.
Proof. by case: rows => [|r [|r' rows]] //; case: ncols => [|[|ncols]]. Qed.

(** The entries of a row of the identity: a single 1, at the label. *)
Lemma eye_row_one_hot (n l : nat) :
  (l < n)%N ->
  one_hot_col (eye_row n l) /\ \sum_(x <- eye_row n l) x = 1.
Proof.
move=> lt_l.
have in_l : l \in iota 0 n by rewrite mem_iota.
have count1 : count (pred1 (1 : R)) (eye_row n l) = 1%N.
  rewrite count_map -[RHS]/(nat_of_bool true) -in_l.
  rewrite -(count_uniq_mem _ (iota_uniq 0 n)); apply: eq_count => j /=.
  rewrite [RHS]eq_sym; case: (l == j); rewrite /= ?mulr1n ?mulr0n ?eqxx //.
  by rewrite eq_sym oner_eq0.
have count0 : (count (pred1 (0 : R)) (eye_row n l) + 1 = n)%N.
  rewrite -count1 -[RHS](size_eye_row n l) -(count_predC (pred1 (1 : R))).
  rewrite addnC; congr (_ + _)%N; rewrite !count_map; apply: eq_count => j /=.
  case: (l == j); rewrite /= ?mulr1n ?mulr0n ?eqxx ?oner_eq0 //.
  by rewrite eq_sym oner_eq0.
split; first by rewrite /one_hot_col count1 count0 size_eye_row !eqxx.
rewrite big_map (bigD1_seq l) ?iota_uniq //= eqxx big1 ?addr0 // => j.
by rewrite eq_sym => /negPf->.
Qed.

(** The transpose of the rows selected by the labels [b]. *)
Lemma transpose_label_rows (nc : nat) (b : seq nat) :
  all (fun l => l < nc)%N b ->
  one_hot_columns nc (size b) (transpose (Arr2 nc [seq eye_row nc l | l <- b])).
Proof.
move=> in_range; set rows := [seq eye_row nc l | l <- b].
exists [seq column rows j | j <- iota 0 nc]; split.
- by rewrite /= size_map.
- by rewrite size_map size_iota.
- by apply/allP => r /mapP [j _ ->]; rewrite !size_map.
move=> j lt_j.
suff -> : column [seq column rows c | c <- iota 0 nc] j
            = eye_row nc (nth 0%N b j).
  by apply: eye_row_one_hot; rewrite (allP in_range) // mem_nth.
rewrite /column -map_comp -[RHS](mkseq_nth 0) size_eye_row.
apply/eq_in_map => c; rewrite mem_iota add0n /= => lt_c.
by rewrite (nth_map [::]) ?size_map // (nth_map 0%N).
Qed.

(** C8, as the code has it.  For labels in [0, num_classes), when there is
    not exactly one sample and not exactly one class, [one_hot] returns a
    two-dimensional array whose transpose has shape (num_classes, n) and
    in each column exactly one entry equal to 1, the others equal to 0,
    hence column sums equal to 1; so has the batch matrix
    [train_Y[0:J].T], with min(J, n) columns. *)
Theorem one_hot_columns_matrix (a : seq nat) (num_classes : nat) :
  all (fun l => l < num_classes)%N a ->
  size a != 1%N -> num_classes != 1%N ->
  (exists A, one_hot a num_classes = Ok A /\
     one_hot_columns num_classes (size a) (transpose A)) /\
  (forall J, exists B, batch_Y J a num_classes = Ok B /\
     one_hot_columns num_classes (minn J (size a)) B).
Proof.
move=> in_range size_a nc_neq1.
set rows := [seq eye_row num_classes l | l <- a].
have eq_one_hot : one_hot a num_classes = Ok (Arr2 num_classes rows).
  rewrite /one_hot index_rows_eye //; cbn [bind].
  by rewrite -/rows squeeze_matrix ?size_map.
split=> [|J].
  by exists (Arr2 num_classes rows); split=> //; exact: transpose_label_rows.
rewrite /batch_Y eq_one_hot; cbn [bind slice0]; eexists; split; first by [].
rewrite /rows -map_take -size_take_min; apply: transpose_label_rows.
by rewrite -[a](cat_take_drop J) all_cat in in_range; case/andP: in_range.
Qed.

(** [one_hot_columns_matrix] on the labels 2, 0 of three classes. *)
Lemma one_hot_columns_matrix_witness :
  [/\ all (fun l => l < 3)%N [:: 2%N; 0%N], size [:: 2%N; 0%N] != 1%N
    & 3%N != 1%N] /\
  exists A, one_hot [:: 2%N; 0%N] 3 = Ok A /\
    one_hot_columns 3 2 (transpose A).
Proof.
split; first by [].
exact: (proj1 (@one_hot_columns_matrix [:: 2%N; 0%N] 3 isT isT isT)).
Defined.

(** A single sample with label 2 out of three classes: [one_hot] returns
    the one-dimensional array [0, 0, 1], which its transpose leaves as it
    is and which is no (3, 1) matrix; with J = 2 the slice [train_Y[0:J]]
    then cuts the class axis and the batch "matrix" [0, 0] has no 1.
    Likewise two samples of a single class give the one-dimensional
    array [1, 1], no (1, 2) matrix. *)
Lemma one_hot_columns_counterexample :
  (all (fun l => l < 3)%N [:: 2%N] /\
   exists A,
     [/\ one_hot [:: 2%N] 3 = Ok A,
         transpose A = Arr1 [:: 0; 0; 1],
         ~ one_hot_columns 3 1 (transpose A)
       & batch_Y 2 [:: 2%N] 3 = Ok (Arr1 [:: 0; 0])]) /\
  (all (fun l => l < 1)%N [:: 0%N; 0%N] /\
   exists A,
     [/\ one_hot [:: 0%N; 0%N] 1 = Ok A,
         transpose A = Arr1 [:: 1; 1]
       & ~ one_hot_columns 1 2 (transpose A)]).
Proof.
have eq_one_hot : one_hot [:: 2%N] 3 = Ok (Arr1 [:: 0; 0; 1]) by [].
have eq_batch : batch_Y 2 [:: 2%N] 3 = Ok (Arr1 [:: 0; 0]) by [].
have eq_single : one_hot [:: 0%N; 0%N] 1 = Ok (Arr1 [:: 1; 1]) by [].
split; split=> //.
  by exists (Arr1 [:: 0; 0; 1]); split=> //; case=> rows [].
by exists (Arr1 [:: 1; 1]); split=> //; case=> rows [].
Qed.

(** C9, as the code has it.  For a single sample with a label in
    [0, num_classes), [one_hot] returns the one-dimensional row of the
    identity of length num_classes, not a 1 x num_classes matrix, when
    num_classes differs from 1; for a single class the squeeze removes
    both axes and the result is the 0-dimensional array 1. *)
Theorem one_hot_single_sample (l num_classes : nat) :
  (l < num_classes)%N ->
  one_hot [:: l] num_classes
    = Ok (if num_classes == 1%N then Arr0 1
          else Arr1 (eye_row num_classes l)) /\
  size (eye_row num_classes l) = num_classes /\
  one_hot [:: l] num_classes
    <> Ok (Arr2 num_classes [:: eye_row num_classes l]).
Proof.
move=> lt_l.
have eq_one_hot : one_hot [:: l] num_classes
    = Ok (if num_classes == 1%N then Arr0 1
          else Arr1 (eye_row num_classes l)).
  rewrite /one_hot index_rows_eye /= ?lt_l //.
  case: num_classes lt_l => [|[|nc]] //.
  by rewrite ltnS leqn0 => /eqP->.
by rewrite eq_one_hot size_eye_row; split=> //; split=> //; case: ifP.
Qed.

(** [one_hot_single_sample] on label 2 of three classes. *)
Lemma one_hot_single_sample_witness :
  (2 < 3)%N /\ one_hot [:: 2%N] 3 = Ok (Arr1 (eye_row 3 2)).
Proof.
split; first by [].
exact: (proj1 (@one_hot_single_sample 2 3 isT)).
Defined.

(** One sample and one class: the result is 0-dimensional, not a
    one-dimensional vector of length num_classes. *)
Lemma one_hot_single_sample_counterexample :
  (0 < 1)%N /\ one_hot [:: 0%N] 1 = Ok (Arr0 1) /\
  ~ exists v : seq R, one_hot [:: 0%N] 1 = Ok (Arr1 v) /\ size v = 1%N.
Proof.
have eq_one_hot : one_hot [:: 0%N] 1 = Ok (Arr0 1) by [].
by split=> //; split=> //; rewrite eq_one_hot => -[v []].
Qed.

(** ** Part IV. Further properties of the cells *)

(** *** Batches and features *)

(** X1. Mapping the batch [train_X[0:J]] gives the first min(J, N) columns
    of the feature matrix of the whole training set: a sample's feature
    column does not depend on the other samples of the batch. *)
Theorem feature_map_slice (M K N J : nat) (train_X : 'M[R]_(N, M))
    (w : 'M[R]_(M, K)) (k : 'I_K) (j : 'I_(minn J N)) :
  feature_map (slice_rows J train_X) w k j
    = feature_map train_X w k (widen_ord (geq_minr J N) j).
Proof.
rewrite /feature_map !mxE; congr s; apply: eq_bigr => m _.
by rewrite !mxE.
Qed.

Lemma mul_conjT_diag (K n : nat) (S : 'M[complex]_(K, n)) (k : 'I_K) :
  (S *m conjT S) k k = of_real (\sum_j normsq (S k j)).
Proof.
rewrite mxE raddf_sum; apply: eq_bigr => j _.
by rewrite !mxE mulc_conj.
Qed.

(** X2. Every diagonal entry of S.S^H, for the feature matrix S of n
    samples, equals n; the diagonal of the matrix inverted by the solver
    is n + reg_param. *)
Theorem gram_feature_diag (M K n : nat) (X : 'M[R]_(n, M)) (w : 'M[R]_(M, K))
    (reg_param : R) (k : 'I_K) :
  let S := feature_map X w in
  (S *m conjT S) k k = of_real n%:R /\
  gram S reg_param k k = of_real (n%:R + reg_param).
Proof.
move=> S.
have diag : (S *m conjT S) k k = of_real n%:R.
  rewrite mul_conjT_diag; congr of_real.
  rewrite (eq_bigr (fun=> 1)) ?sumr_const ?card_ord // => j _.
  by rewrite /S /feature_map !mxE normsq_s.
split=> //; rewrite gramE -/(conjT S) mxE diag mxE eqxx mulr1n.
by rewrite rmorphD.
Qed.

(** *** The matrix of the normal equations *)

Lemma conjTK (m n : nat) (A : 'M[complex]_(m, n)) : conjT (conjT A) = A.
Proof.
apply/matrixP => i j; rewrite !mxE; apply: eq_complex => //=.
by rewrite opprK.
Qed.

Lemma conjT_add (m n : nat) (A B : 'M[complex]_(m, n)) :
  conjT (A + B) = conjT A + conjT B.
Proof. by rewrite /conjT map_mxD linearD. Qed.

Lemma conjT_real_scalar (n : nat) (x : R) :
  conjT ((of_real x)%:M : 'M_n) = (of_real x)%:M.
Proof.
rewrite /conjT map_scalar_mx tr_scalar_mx; congr (_%:M).
by apply: eq_complex => //=; rewrite oppr0.
Qed.

Lemma gram_hermitian (K n : nat) (S : 'M[complex]_(K, n)) (reg_param : R) :
  conjT (gram S reg_param) = gram S reg_param.
Proof.
by rewrite gramE -/(conjT S) conjT_add conjT_mul conjTK conjT_real_scalar.
Qed.

(** X3. The matrix S.S^H + reg_param.I inverted by the solver is Hermitian,
    and for reg_param > 0 positive definite: v.G.v^H is a positive real
    for every non-zero row vector v. *)
Theorem gram_positive_definite (K n : nat) (S : 'M[complex]_(K, n))
    (reg_param : R) (v : 'rV[complex]_K) :
  0 < reg_param -> v != 0 ->
  let G := gram S reg_param in
  [/\ conjT G = G,
      im ((v *m G *m conjT v) 0 0) = 0
    & 0 < re ((v *m G *m conjT v) 0 0)].
Proof.
move=> reg_gt0 v_neq0 G; split; first exact: gram_hermitian.
  rewrite /G gramE -/(conjT S) mulmxDr mulmxDl mulmxA.
  rewrite -[v *m S *m _ *m _]mulmxA -conjT_mul mul_mx_scalar -scalemxAl.
  rewrite [in LHS]mxE [X in _ + X]mxE !row_mul_conjT im_add im_mul /=.
  by rewrite mul0r mulr0 !addr0.
rewrite gram_form.
have sum_ge0 (p : nat) (u : 'rV[complex]_p) : 0 <= \sum_j normsq (u 0 j).
  by apply: sumr_ge0 => j _; exact: normsq_ge0.
apply: ltr_wpDl => //; rewrite mulr_gt0 // lt_neqAle sum_ge0 andbT eq_sym.
apply: contraNneq v_neq0 => sum0; apply/eqP/rowP => k; rewrite mxE.
apply/eqP; rewrite -[_ == 0]normsq_eq0; apply/eqP.
by apply: (psumr_eq0P _ sum0) => // i _; exact: normsq_ge0.
Qed.

(** [gram_positive_definite] at K = n = 1 and reg_param = 2. *)
Lemma gram_positive_definite_witness :
  (0 < (2 : R)) /\ ((1%:M : 'rV[complex]_1) != 0) /\
  conjT (gram (1%:M : 'M[complex]_1) 2) = gram (1%:M : 'M[complex]_1) 2.
Proof.
have lam : 0 < (2 : R) by rewrite ltr0n.
have neq0 : (1%:M : 'rV[complex]_1) != 0.
  by apply/eqP => /matrixP /(_ 0 0) /eqP; rewrite !mxE eqxx oner_eq0.
split; first exact: lam.
split; first exact: neq0.
by have [] := @gram_positive_definite 1 1 1%:M 2 1%:M lam neq0.
Defined.

(** *** The solver *)

Lemma ridge_solve_unit (c K n : nat) (Y : 'M[R]_(c, n))
    (S : 'M[complex]_(K, n)) (reg_param : R) :
  gram S reg_param \in unitmx ->
  ridge_solve Y S reg_param
    = Ok (map_mx of_real Y *m conjT S *m invmx (gram S reg_param)).
Proof. by move=> Gunit; rewrite /ridge_solve /linalg_inv Gunit. Qed.

(** X4. For reg_param > 0 the weight matrix returned by the solver is the
    only solution of the normal equations T.(S.S^H + reg_param.I) = Y.S^H. *)
Theorem ridge_solution_unique (c K n : nat) (Y : 'M[R]_(c, n))
    (S : 'M[complex]_(K, n)) (reg_param : R) (T : 'M[complex]_(c, K)) :
  0 < reg_param ->
  T *m (S *m (map_mx conjc S)^T + (of_real reg_param)%:M)
    = map_mx of_real Y *m (map_mx conjc S)^T ->
  ridge_solve Y S reg_param = Ok T.
Proof.
move=> reg_gt0; rewrite -gramE -/(conjT S) => eq_T.
have Gunit := gram_unit S reg_gt0.
by rewrite ridge_solve_unit // -eq_T mulmxK.
Qed.

(** [ridge_solution_unique] at S = [[1]], Y = [[1]], reg_param = 1, where
    the solution is [[1/2]]. *)
Lemma ridge_solution_unique_witness :
  (0 < (1 : R)) /\
  ridge_solve (1%:M : 'M[R]_1) (1%:M : 'M[complex]_1) 1 = Ok (of_real 2^-1)%:M.
Proof.
split; first exact: ltr01.
apply: ridge_solution_unique; first exact: ltr01.
rewrite !map_scalar_mx tr_scalar_mx !rmorph1 mulmx1 -raddfD -scalar_mxM.
congr (_%:M); rewrite -[1 + 1](rmorphD of_real) -rmorphM /=.
by rewrite mulVf ?Rtwo_neq0 // rmorph1.
Defined.

(** X5. The weights of a class only depend on the label row of that class:
    row i of the weight matrix is what the solver returns for row i of Y
    alone, and the solver fails on the one exactly when it fails on the
    other. *)
Theorem ridge_solve_row (c K n : nat) (Y : 'M[R]_(c, n))
    (S : 'M[complex]_(K, n)) (reg_param : R) (i : 'I_c) :
  ridge_solve (row i Y) S reg_param
    = (Theta <- ridge_solve Y S reg_param ;; Ok (row i Theta)).
Proof.
rewrite /ridge_solve /linalg_inv; case: ifP => // _; cbn [bind].
by rewrite !row_mul map_row.
Qed.

(** X6. The solver is additive in the labels: the weights for Y1 + Y2 are
    the sum of the weights for Y1 and for Y2; in particular zero labels
    give zero weights. *)
Theorem ridge_solve_add (c K n : nat) (Y1 Y2 : 'M[R]_(c, n))
    (S : 'M[complex]_(K, n)) (reg_param : R) :
  ridge_solve (Y1 + Y2) S reg_param
    = (T1 <- ridge_solve Y1 S reg_param ;;
       T2 <- ridge_solve Y2 S reg_param ;; Ok (T1 + T2)) /\
  ridge_solve (0 : 'M[R]_(c, n)) S reg_param
    = (B <- linalg_inv (gram S reg_param) ;; Ok 0).
Proof.
rewrite /ridge_solve /linalg_inv; case: ifP => // _; cbn [bind].
by rewrite map_mxD !mulmxDl map_mx0 !mul0mx.
Qed.

(** X8. Batch size J = 0 (the batch [train_X[0:0]] is empty): for a
    non-negative sigma, a non-zero reg_param, at least one class and one
    test label per test sample, the solver returns the zero weight matrix
    and the training accuracy 0/0 is not a finite number. *)
Theorem empty_batch (c M K nt : nat) (sigma reg_param : R)
    (X : 'M[R]_(0, M)) (Y : 'M[R]_(c, 0)) (train_y : seq nat)
    (test_X : 'M[R]_(nt, M)) (test_y : seq nat) (g : rng) :
  (0 < c)%N -> 0 <= sigma -> reg_param != 0 -> size test_y = nt ->
  exists te,
    run K sigma reg_param 0 X Y train_y test_X test_y g
      = Ok (Outcome 0 NonFinite te).
Proof.
move=> c_gt0 _ reg_neq0 _; rewrite /run.
set S := feature_map X _; set S_test := feature_map test_X _.
have Gunit : gram S reg_param \in unitmx.
  rewrite gramE [S]thinmx0 mul0mx add0r unitmxE det_scalar.
  by rewrite unitfE expf_neq0 // of_real_eq0.
rewrite ridge_solve_unit // [map_mx _ Y]thinmx0 !mul0mx bind_Ok.
have [p eq_p _] := predict_total (0 : 'M[complex]_(c, K)) S c_gt0.
have [te ->] := test_pred_total (0 : 'M[complex]_(c, K)) S_test test_y c_gt0.
by rewrite /train_pred eq_p !bind_Ok; exists te.
Qed.

(** [empty_batch] with one class, one feature, sigma = 1, reg_param = 2
    and one test sample. *)
Lemma empty_batch_witness :
  [/\ (0 < 1)%N, 0 <= (1 : R), (2 : R) != 0 & size [:: 0%N] = 1%N] /\
  exists te,
    run 1 1 2 0 (0 : 'M[R]_(0, 1)) (0 : 'M[R]_(1, 0)) [::]
      (1%:M : 'M[R]_1) [:: 0%N] (fun=> 0)
    = Ok (Outcome 0 NonFinite te).
Proof.
have neq0 : (2 : R) != 0 by rewrite pnatr_eq0.
split; first by split=> //; exact: ler01.
exact: (@empty_batch 1 1 1 1 1 2 0 0 [::] 1%:M [:: 0%N] (fun=> 0)
          isT ler01 neq0 (erefl _)).
Defined.

(** *** The predictor and the scorer *)

Lemma eq_mapM (T U : Type) (f g : T -> result U) (xs : seq T) :
  (forall x, f x = g x) -> mapM f xs = mapM g xs.
Proof. by move=> fg; elim: xs => //= x xs ->; rewrite fg. Qed.

Lemma argmax_from_scale (a : R) (best : nat) (bv : R) (i : nat) (xs : seq R) :
  0 < a ->
  argmax_from best (a * bv) i [seq a * x | x <- xs]
    = argmax_from best bv i xs.
Proof.
move=> a_gt0; elim: xs best bv i => //= x xs IH best bv i.
by rewrite ltr_pM2l // !IH.
Qed.

Lemma argmax_scale (a : R) (xs : seq R) :
  0 < a -> argmax [seq a * x | x <- xs] = argmax xs.
Proof. by move=> a_gt0; case: xs => //= x xs; rewrite argmax_from_scale. Qed.

(** X9. The predicted classes do not change when the weight matrix is
    multiplied by a positive real number. *)
Theorem predict_scale (c K n : nat) (a : R) (Theta : 'M[complex]_(c, K))
    (S : 'M[complex]_(K, n)) :
  0 < a -> predict (of_real a *: Theta) S = predict Theta S.
Proof.
move=> a_gt0; rewrite /predict /argmax_axis0; case: c Theta => // c Theta.
apply: eq_mapM => j; rewrite -[RHS](argmax_scale _ a_gt0) /mx_column -map_comp.
congr argmax; apply: eq_map => i /=.
by rewrite -scalemxAl !mxE re_mul /= mul0r subr0.
Qed.

(** [predict_scale] for the factor 2 and two classes. *)
Lemma predict_scale_witness :
  (0 < (2 : R)) /\
  predict (of_real 2 *: (const_mx 1 : 'M[complex]_(2, 1)))
    (1%:M : 'M[complex]_1)
  = predict (const_mx 1 : 'M[complex]_(2, 1)) (1%:M : 'M[complex]_1).
Proof.
have two_gt0 : 0 < (2 : R) by rewrite ltr0n.
split; first exact: two_gt0.
exact: predict_scale.
Defined.

Lemma eq_sum_le (p y : seq nat) : (eq_sum p y <= size p)%N.
Proof.
rewrite /eq_sum; elim: p y => [|a p IH] [|b y] //=.
by rewrite -add1n leq_add ?leq_b1.
Qed.

Lemma eq_sum_full (p y : seq nat) :
  size p = size y -> (eq_sum p y == size p) = (p == y).
Proof.
elim: p y => [|a p IH] [|b y] //= [eq_size].
rewrite eqseq_cons -IH // /eq_sum /= -/(eq_sum p y).
case: (a == b) => /=; first by rewrite add1n eqSS.
by rewrite add0n ltn_eqF // ltnS eq_sum_le.
Qed.

(** X10. When the batch holds exactly J >= 1 samples, the reported training
    accuracy is 1 exactly when every predicted class equals its label. *)
Theorem train_pred_perfect (c K J : nat) (Theta : 'M[complex]_(c, K))
    (S : 'M[complex]_(K, J)) (train_y : seq nat) :
  (0 < c)%N -> (0 < J)%N -> size (take J train_y) = J ->
  exists p : seq nat,
    predict Theta S = Ok p /\
    (train_pred Theta S train_y J = Ok (Finite 1) <-> p = take J train_y).
Proof.
move=> c_gt0 J_gt0 size_y.
have [p eq_p size_p] := predict_total Theta S c_gt0.
exists p; split=> //; rewrite /train_pred eq_p bind_Ok true_divide_pos //.
have J_neq0 : J%:R != 0 :> R by rewrite pnatr_eq0 -lt0n.
have full : (eq_sum p (take J train_y) == J) = (p == take J train_y).
  by rewrite -[X in _ == X]size_p eq_sum_full // size_p size_y.
split=> [[/eqP] | /eqP]; last by rewrite -full => /eqP->; rewrite divff.
rewrite -(inj_eq (mulIf J_neq0)) mulfVK // mul1r eqr_nat full.
by move/eqP.
Qed.

(** [train_pred_perfect] for one class and one sample. *)
Lemma train_pred_perfect_witness :
  [/\ (0 < 1)%N, (0 < 1)%N & size (take 1 [:: 0%N]) = 1%N] /\
  exists p : seq nat,
    predict (1%:M : 'M[complex]_1) (1%:M : 'M[complex]_1) = Ok p.
Proof.
split; first by [].
have [p [eq_p _]] :=
  @train_pred_perfect 1 1 1 1%:M 1%:M [:: 0%N] isT isT (erefl _).
by exists p.
Defined.

Lemma map_cst (T U : Type) (r : U) (xs : seq T) :
  [seq r | _ <- xs] = nseq (size xs) r.
Proof. by elim: xs => //= x xs ->. Qed.

(** X11. With sigma = 0 the basis is zero, every feature equals 1 whatever
    the input, and the predictor returns the same class for all samples. *)
Theorem zero_spread_constant (c M K n : nat) (X : 'M[R]_(n, M)) (g : rng)
    (Theta : 'M[complex]_(c, K)) :
  (0 < c)%N ->
  let S := feature_map X (normal M K 0 0 g) in
  S = const_mx 1 /\ exists r : nat, predict Theta S = Ok (nseq n r).
Proof.
move=> c_gt0 S.
have eq_S : S = const_mx 1.
  apply/matrixP => k j; rewrite /S /feature_map !mxE big1 ?s_0 // => m _.
  by rewrite !mxE mul0r addr0 mulr0.
split=> //; rewrite eq_S predict_ok //.
exists (argmax_idx [seq re (\sum_k Theta i k) | i <- enum 'I_c]).
rewrite -[n in nseq n]size_enum_ord -map_cst; congr Ok.
apply: eq_map => j; congr argmax_idx.
apply: eq_map => i; rewrite !mxE; congr re; apply: eq_bigr => k _.
by rewrite mxE mulr1.
Qed.

(** [zero_spread_constant] for one class. *)
Lemma zero_spread_constant_witness :
  (0 < 1)%N /\
  feature_map (1%:M : 'M[R]_1) (normal 1 1 0 0 (fun=> 1)) = const_mx 1.
Proof.
split; first by [].
exact: (proj1 (@zero_spread_constant 1 1 1 1 1%:M (fun=> 1) 1%:M isT)).
Defined.

(** *** [one_hot] and [argmax] *)

Lemma nth_eye_row (n l j : nat) :
  (j < n)%N -> nth 0 (eye_row n l) j = (l == j)%:R.
Proof.
by move=> lt_j; rewrite (nth_map 0%N) ?size_iota // nth_iota // add0n.
Qed.

(** The maximum of a row of the identity is at its label. *)
Lemma argmax_eye_row (n l : nat) : (l < n)%N -> argmax (eye_row n l) = Ok l.
Proof.
move=> lt_l; rewrite argmax_ok ?size_eye_row ?(leq_ltn_trans _ lt_l) //.
have [] := @argmax_idxP (eye_row n l).
  by rewrite size_eye_row (leq_ltn_trans _ lt_l).
rewrite size_eye_row; set r := argmax_idx _ => lt_r /(_ l lt_l) le_max _.
move: le_max; rewrite !nth_eye_row // eqxx; case: eqP => [-> //|_].
by rewrite ler10.
Qed.

Lemma column_transpose_rows (nc : nat) (b : seq nat) (j : nat) :
  (j < size b)%N ->
  column [seq column [seq eye_row nc l | l <- b] c | c <- iota 0 nc] j
    = eye_row nc (nth 0%N b j).
Proof.
move=> lt_j; rewrite /column -map_comp -[RHS](mkseq_nth 0) size_eye_row.
apply/eq_in_map => c; rewrite mem_iota add0n /= => lt_c.
by rewrite (nth_map [::]) ?size_map // (nth_map 0%N).
Qed.

(** X12. Decoding the encoding: for labels in [0, num_classes), more than
    one class and not exactly one sample, the argmax of column j of the
    one-hot label matrix [one_hot(a, num_classes).T] is the label a[j]. *)
Theorem one_hot_argmax (a : seq nat) (num_classes : nat) :
  all (fun l => l < num_classes)%N a ->
  size a != 1%N -> num_classes != 1%N ->
  exists rows,
    [/\ one_hot a num_classes
          = Ok (Arr2 num_classes [seq eye_row num_classes l | l <- a]),
        transpose (Arr2 num_classes [seq eye_row num_classes l | l <- a])
          = Arr2 (size a) rows
      & forall j, (j < size a)%N ->
          argmax (column rows j) = Ok (nth 0%N a j)].
Proof.
move=> in_range size_a nc_neq1.
exists [seq column [seq eye_row num_classes l | l <- a] c
       | c <- iota 0 num_classes]; split.
- rewrite /one_hot index_rows_eye // bind_Ok.
  by rewrite squeeze_matrix ?size_map.
- by rewrite /= size_map.
move=> j lt_j; rewrite column_transpose_rows // argmax_eye_row //.
by rewrite (allP in_range) // mem_nth.
Qed.

(** [one_hot_argmax] on the labels 2, 0 of three classes. *)
Lemma one_hot_argmax_witness :
  [/\ all (fun l => l < 3)%N [:: 2%N; 0%N], size [:: 2%N; 0%N] != 1%N
    & 3%N != 1%N] /\
  exists rows,
    transpose (Arr2 3 [seq eye_row 3 l | l <- [:: 2%N; 0%N]]) = Arr2 2 rows /\
    argmax (column rows 0) = Ok 2%N.
Proof.
split; first by [].
have [rows [_ eq_T eq_max]] := @one_hot_argmax [:: 2%N; 0%N] 3 isT isT isT.
by exists rows; split; [exact: eq_T | exact: (eq_max 0%N isT)].
Defined.

(** X13. A label that is not below num_classes makes [one_hot] raise
    [IndexError], wherever it stands in the label vector. *)
Theorem one_hot_index_error (a : seq nat) (num_classes : nat) :
  has (fun l => num_classes <= l)%N a ->
  one_hot a num_classes = Raise IndexError.
Proof.
rewrite /one_hot /index_rows => out.
suff -> : mapM (get_row (eye num_classes)) a = Raise IndexError by [].
elim: a out => //= l a IH.
case: (ltnP l num_classes) => [lt_l | le_l _].
  by rewrite get_row_eye //= => /IH->.
by rewrite /get_row size_map size_iota ltnNge le_l.
Qed.

(** [one_hot_index_error] on the labels 0, 3 of three classes. *)
Lemma one_hot_index_error_witness :
  has (fun l => 3 <= l)%N [:: 0%N; 3%N] /\
  one_hot [:: 0%N; 3%N] 3 = Raise IndexError.
Proof.
split; first by [].
exact: (@one_hot_index_error [:: 0%N; 3%N] 3 isT).
Defined.

(** *** Reshaping the images *)

Lemma flatten_flatten (T : Type) (sss : seq (seq (seq T))) :
  flatten (flatten sss) = flatten [seq flatten ss | ss <- sss].
Proof. by elim: sss => //= ss sss <-; rewrite flatten_cat. Qed.

Lemma size_flatten_image (h w : nat) (img : seq (seq R)) :
  size img = h -> all (fun r => size r == w) img ->
  size (flatten img) = (h * w)%N.
Proof.
move=> size_img rows.
have : all (pred1 w) [seq size r | r <- img] by rewrite all_map.
move/all_pred1P; rewrite size_map size_img size_flatten /shape => ->.
by rewrite sumn_nseq mulnC.
Qed.

(** Pixel (r, c) of an image of width [w] is entry [r * w + c] of its
    flattening. *)
Lemma nth_flatten_image (w : nat) (img : seq (seq R)) (r c : nat) :
  all (fun row => size row == w) img -> (c < w)%N ->
  nth 0 (flatten img) (r * w + c) = nth 0 (nth [::] img r) c.
Proof.
move=> rows_w lt_c; elim: img r rows_w => [|row img IH] r /=.
  by rewrite !nth_nil.
case/andP=> /eqP size_row rows_w; rewrite nth_cat size_row.
case: r => [|r]; first by rewrite mul0n add0n lt_c.
by rewrite mulSn -addnA ltnNge leq_addr /= addKn IH.
Qed.

Lemma reshape2_images (A : array3) (m : nat) :
  well_shaped A -> (height A * width A = m)%N ->
  reshape2 (size (images A)) m A
    = Ok (Arr2 m [seq flatten img | img <- images A]).
Proof.
move=> wf <-; rewrite /reshape2 mulnA eqxx flatten_flatten.
congr (Ok (Arr2 _ _)); rewrite -[RHS]flattenK; congr reshape.
rewrite /shape -map_comp.
have : all (pred1 (height A * width A)%N)
           [seq (size \o flatten) img | img <- images A].
  rewrite all_map; apply/allP => img /(allP wf) /= /andP [/eqP size_img rows].
  by rewrite (size_flatten_image size_img rows).
by move/all_pred1P->; rewrite size_map.
Qed.

Lemma nth_reshaped (A : array3) (i r c : nat) :
  well_shaped A -> (c < width A)%N ->
  nth 0 (nth [::] [seq flatten img | img <- images A] i) (r * width A + c)
    = nth 0 (nth [::] (nth [::] (images A) i) r) c.
Proof.
move=> wf lt_c.
have [lt_i | le_i] := ltnP i (size (images A)); last first.
  by rewrite !nth_default ?size_map // nth_nil.
rewrite (nth_map [::]) // nth_flatten_image //.
by have /(allP wf) /andP [] : nth [::] (images A) i \in images A
  by exact: mem_nth.
Qed.

(** X14. For well-shaped square images of one size in both sets, cell 3
    returns for each set the array whose row i is image i flattened row
    after row: pixel (r, c) of image i is entry (i, r * height + c). *)
Theorem load_reshape_square (train test : array3) :
  well_shaped train -> well_shaped test ->
  width train = height train ->
  height test = height train -> width test = height train ->
  let M := (height train ^ 2)%N in
  let rows A := [seq flatten img | img <- images A] in
  load_reshape train test = Ok (Arr2 M (rows train), Arr2 M (rows test)) /\
  forall (i r c : nat), (c < height train)%N ->
    nth 0 (nth [::] (rows train) i) (r * height train + c)
      = nth 0 (nth [::] (nth [::] (images train) i) r) c /\
    nth 0 (nth [::] (rows test) i) (r * height train + c)
      = nth 0 (nth [::] (nth [::] (images test) i) r) c.
Proof.
move=> wf_tr wf_te w_tr h_te w_te M rows; split.
  have eq_tr : (height train * width train = M)%N.
    by rewrite w_tr /M expnS expn1.
  have eq_te : (height test * width test = M)%N.
    by rewrite h_te w_te /M expnS expn1.
  by rewrite /load_reshape -/M (reshape2_images wf_tr eq_tr) bind_Ok
             (reshape2_images wf_te eq_te).
move=> i r c lt_c; split.
  by have := @nth_reshaped train i r c wf_tr; rewrite w_tr; apply.
by have := @nth_reshaped test i r c wf_te; rewrite w_te; apply.
Qed.

(** [load_reshape_square] on one 2 x 2 training image and one 2 x 2 test
    image. *)
Lemma load_reshape_square_witness :
  let train := Array3 2 2 [:: [:: [:: 1; 2]; [:: 3; 4]]] in
  let test := Array3 2 2 [:: [:: [:: 5; 6]; [:: 7; 8]]] in
  [/\ well_shaped train, well_shaped test, width train = height train,
      height test = height train & width test = height train] /\
  load_reshape train test
    = Ok (Arr2 4 [:: [:: 1; 2; 3; 4]], Arr2 4 [:: [:: 5; 6; 7; 8]]).
Proof.
move=> train test; split; first by [].
exact: (proj1 (@load_reshape_square train test isT isT (erefl _) (erefl _)
                 (erefl _))).
Defined.

(** X15. Cell 3 takes M = height ** 2: when the training images are not
    square (and there is at least one image, of positive height) the
    reshape of the training set raises [ValueError]. *)
Theorem load_reshape_not_square (train test : array3) :
  (0 < size (images train))%N -> (0 < height train)%N ->
  width train != height train ->
  load_reshape train test = Raise ValueError.
Proof.
move=> N_gt0 h_gt0 w_neq_h; rewrite /load_reshape /reshape2.
by rewrite -mulnA eqn_pmul2l // expnS expn1 eqn_pmul2l // (negPf w_neq_h).
Qed.

(** [load_reshape_not_square] on one 1 x 2 training image. *)
Lemma load_reshape_not_square_witness :
  let train := Array3 1 2 [:: [:: [:: 1; 2]]] in
  [/\ (0 < size (images train))%N, (0 < height train)%N
    & width train != height train] /\
  load_reshape train train = Raise ValueError.
Proof.
move=> train; split; first by [].
exact: (@load_reshape_not_square train train isT isT isT).
Defined.

(** X16. The test set is reshaped with the M of the training set: test
    images whose number of pixels differs from M raise [ValueError], also
    when the training set itself is reshaped without error. *)
Theorem load_reshape_test_mismatch (train test : array3) :
  well_shaped train -> width train = height train ->
  (0 < size (images test))%N ->
  (height test * width test)%N != (height train ^ 2)%N ->
  load_reshape train test = Raise ValueError.
Proof.
move=> wf_tr w_tr Nt_gt0 neq_M; rewrite /load_reshape.
have eq_tr : (height train * width train = height train ^ 2)%N.
  by rewrite w_tr expnS expn1.
rewrite (reshape2_images wf_tr eq_tr) bind_Ok /reshape2.
by rewrite -mulnA eqn_pmul2l // (negPf neq_M).
Qed.

(** [load_reshape_test_mismatch] on a 1 x 1 training image and a 1 x 2
    test image. *)
Lemma load_reshape_test_mismatch_witness :
  let train := Array3 1 1 [:: [:: [:: 1]]] in
  let test := Array3 1 2 [:: [:: [:: 1; 2]]] in
  [/\ well_shaped train, width train = height train,
      (0 < size (images test))%N
    & (height test * width test)%N != (height train ^ 2)%N] /\
  load_reshape train test = Raise ValueError.
Proof.
move=> train test; split; first by [].
exact: (@load_reshape_test_mismatch train test isT (erefl _) isT isT).
Defined.

(** *** The closed form is the minimiser *)

Lemma fnorm2_tr (m n : nat) (A : 'M[complex]_(m, n)) :
  of_real (fnorm2 A) = \tr (A *m conjT A).
Proof.
rewrite /fnorm2 /mxtrace raddf_sum; apply: eq_bigr => i _.
by rewrite mul_conjT_diag.
Qed.

Lemma fnorm2_ge0 (m n : nat) (A : 'M[complex]_(m, n)) : 0 <= fnorm2 A.
Proof.
by apply: sumr_ge0 => i _; apply: sumr_ge0 => j _; exact: normsq_ge0.
Qed.

Lemma conjT_opp (m n : nat) (A : 'M[complex]_(m, n)) : conjT (- A) = - conjT A.
Proof. by rewrite /conjT map_mxN linearN. Qed.

Lemma conjT_scale_real (m n : nat) (x : R) (A : 'M[complex]_(m, n)) :
  conjT (of_real x *: A) = of_real x *: conjT A.
Proof.
rewrite /conjT map_mxZ linearZ /=; congr (_ *: _).
by apply: eq_complex => //=; rewrite oppr0.
Qed.

Lemma ridge_solve_normal (c K n : nat) (Y : 'M[R]_(c, n))
    (S : 'M[complex]_(K, n)) (lambda : R) (Theta : 'M[complex]_(c, K)) :
  ridge_solve Y S lambda = Ok Theta ->
  Theta *m gram S lambda = map_mx of_real Y *m conjT S.
Proof.
rewrite /ridge_solve /linalg_inv; case: ifP => // Gunit [<-].
by rewrite mulmxKV.
Qed.

(** Expansion of the two squared norms around a point where the cross
    terms cancel. *)
Lemma tr_expand (c K n : nat) (E P : 'M[complex]_(c, n))
    (A D : 'M[complex]_(c, K)) (a : complex) :
  \tr (E *m conjT P) = a * \tr (A *m conjT D) ->
  \tr (P *m conjT E) = a * \tr (D *m conjT A) ->
  \tr ((E - P) *m conjT (E - P)) + a * \tr ((A + D) *m conjT (A + D))
    = \tr (E *m conjT E) + a * \tr (A *m conjT A)
      + (\tr (P *m conjT P) + a * \tr (D *m conjT D)).
Proof.
move=> cross1 cross2.
rewrite !conjT_add conjT_opp !mulmxDl !mulmxDr !mulmxN !mulNmx opprK.
rewrite !(mxtraceD, raddfN) /= cross1 cross2.
by ring.
Qed.

Section Minimiser.
Variables (c K n : nat) (Y : 'M[R]_(c, n)) (S : 'M[complex]_(K, n)).
Variables (lambda : R) (Theta : 'M[complex]_(c, K)).
Hypothesis normal : Theta *m gram S lambda = map_mx of_real Y *m conjT S.

Let YC := map_mx of_real Y.
Let lc := of_real lambda.

(** The residual is orthogonal to the features up to the regularisation. *)
Lemma residual_features : (YC - Theta *m S) *m conjT S = lc *: Theta.
Proof.
rewrite mulmxBl -/YC -normal gramE -/(conjT S) mulmxDr mulmxA.
by rewrite addrC addKr mul_mx_scalar.
Qed.

Lemma objective_shift (T : 'M[complex]_(c, K)) :
  objective Y S lambda T
    = objective Y S lambda Theta
      + (fnorm2 ((T - Theta) *m S) + lambda * fnorm2 (T - Theta)).
Proof.
set D := T - Theta; set E0 := YC - Theta *m S.
have eq_T : T = Theta + D by rewrite /D addrC subrK.
have eq_E : YC - T *m S = E0 - D *m S.
  by rewrite /E0 eq_T mulmxDl opprD addrA.
have cross1 : \tr (E0 *m conjT (D *m S)) = lc * \tr (Theta *m conjT D).
  by rewrite conjT_mul mulmxA residual_features -scalemxAl mxtraceZ.
have cross2 : \tr (D *m S *m conjT E0) = lc * \tr (D *m conjT Theta).
  have -> : D *m S *m conjT E0 = D *m conjT (E0 *m conjT S).
    by rewrite conjT_mul conjTK mulmxA.
  by rewrite residual_features conjT_scale_real -scalemxAr mxtraceZ.
apply: (fmorph_inj of_real); rewrite /objective -/YC eq_E -/E0.
rewrite !rmorphD !rmorphM /= !fnorm2_tr -/lc [in LHS]eq_T.
exact: tr_expand.
Qed.

End Minimiser.

(** X17. For reg_param >= 0 the weight matrix returned by the solver
    minimises the regularised squared error ||Y - T.S||^2 +
    reg_param.||T||^2 (squared Frobenius norms) over all complex weight
    matrices T. *)
Theorem ridge_solve_minimiser (c K n : nat) (Y : 'M[R]_(c, n))
    (S : 'M[complex]_(K, n)) (reg_param : R) (Theta T : 'M[complex]_(c, K)) :
  0 <= reg_param -> ridge_solve Y S reg_param = Ok Theta ->
  objective Y S reg_param Theta <= objective Y S reg_param T.
Proof.
move=> reg_ge0 /ridge_solve_normal normal.
rewrite (objective_shift normal T) lerDl addr_ge0 ?fnorm2_ge0 //.
by rewrite mulr_ge0 ?fnorm2_ge0.
Qed.

Lemma ridge11_half :
  ridge_solve (1%:M : 'M[R]_1) (1%:M : 'M[complex]_1) 1 = Ok (of_real 2^-1)%:M.
Proof.
rewrite ridge11 /normsq /= mulr1 mulr0 addr0 (negPf Rtwo_neq0).
by rewrite (rmorph1 of_real) (rmorph1 conjc) !mul1r -fmorphV.
Qed.

(** [ridge_solve_minimiser] at S = [[1]], Y = [[1]], reg_param = 1: the
    returned [[1/2]] does at least as well as the zero weights. *)
Lemma ridge_solve_minimiser_witness :
  let Y := 1%:M : 'M[R]_1 in
  let S := 1%:M : 'M[complex]_1 in
  [/\ 0 <= (1 : R), ridge_solve Y S 1 = Ok (of_real 2^-1)%:M
    & objective Y S 1 (of_real 2^-1)%:M <= objective Y S 1 0].
Proof.
move=> Y S; split; [exact: ler01 | exact: ridge11_half |].
exact: (@ridge_solve_minimiser 1 1 1 Y S 1 _ 0 ler01 ridge11_half).
Defined.

(** *** The whole run *)

(** X18. For a non-negative sigma, reg_param > 0, at least one class, and
    one label per scored sample (as many labels in [train_y[0:J]] as batch
    samples, as many test labels as test samples), the run of cells 5 to 7
    does not raise: it returns a weight matrix that solves the normal
    equations, and two accuracy values. *)
Theorem run_succeeds (c M K n nt : nat) (sigma reg_param : R) (J : nat)
    (X : 'M[R]_(n, M)) (Y : 'M[R]_(c, n)) (train_y : seq nat)
    (test_X : 'M[R]_(nt, M)) (test_y : seq nat) (g : rng) :
  (0 < c)%N -> 0 <= sigma -> 0 < reg_param ->
  size (take J train_y) = n -> size test_y = nt ->
  let S := feature_map X (normal M K 0 sigma g) in
  exists o : outcome c K,
    run K sigma reg_param J X Y train_y test_X test_y g = Ok o /\
    Theta_of o *m gram S reg_param = map_mx of_real Y *m conjT S.
Proof.
move=> c_gt0 _ reg_gt0 _ _ S.
have eq_T := ridge_solve_unit Y (gram_unit S reg_gt0).
have [tr [te eq_run]] :=
  run_ok J train_y test_X test_y c_gt0 eq_T.
by eexists; split; [exact: eq_run | exact: ridge_solve_normal].
Qed.

(** [run_succeeds] for one class, one feature, one training and one test
    sample, sigma = 1, reg_param = 2 and J = 1. *)
Lemma run_succeeds_witness :
  [/\ (0 < 1)%N, 0 <= (1 : R), 0 < (2 : R),
      size (take 1 [:: 0%N]) = 1%N & size [:: 0%N] = 1%N] /\
  exists o : outcome 1 1,
    run 1 1 2 1 (1%:M : 'M[R]_1) (1%:M : 'M[R]_1) [:: 0%N]
      (1%:M : 'M[R]_1) [:: 0%N] (fun=> 0) = Ok o.
Proof.
have two_gt0 : 0 < (2 : R) by rewrite ltr0n.
split; first by split=> //; exact: ler01.
have [o [eq_o _]] :=
  @run_succeeds 1 1 1 1 1 1 2 1 1%:M 1%:M [:: 0%N] 1%:M [:: 0%N] (fun=> 0)
    isT ler01 two_gt0 (erefl _) (erefl _).
by exists o.
Defined.
